(** * Gas resolution of pysui's GraphQL transaction builder

    A shallow embedding of [pysui/sui/sui_pgql/pgql_txb_gas.py]: the coin
    inventory accessors, the dry-run budget estimator, the coin selector and
    the assembler [get_gas_data], followed by the properties the
    specification states about them.

    Python integers are unbounded and are modelled by [Z]; [str] by
    [string]; [set[str]] by [gset string]; lists by [list].  The remote
    client is the only source of effects: it is modelled by a transition
    function on an abstract remote state, and every query handed to it is
    appended to a log. *)

From Stdlib Require Import ZArith NArith String Ascii List.
From Stdlib Require Strings.Byte.
From stdpp Require Import functions sorting.
From stdpp Require Import base decidable option numbers list gmap strings.

Open Scope Z_scope.

(** ** Data model *)

(** Modelled from the spec: class [SuiCoinObjectGQL] is declared in
    [pysui.sui.sui_pgql.pgql_types], which is not among the sources.  The
    record keeps what the gas code reads ([coin_object_id], [balance]) and
    what an object reference is made of (version and digest).  The balance is
    a non-negative integer in the ledger's smallest unit (data model, Coin). *)
Record SuiCoinObjectGQL := {
  coin_object_id : string;
  version : N;
  object_digest : string;
  balance : N;
}.

(** Python's [int(x.balance)]. *)
Definition int (n : N) : Z := Z.of_N n.

(** Modelled from the spec: [bcs.ObjectReference] and its constructor
    [from_gql_ref] live in [pysui.sui.sui_types.bcs], which is not among the
    sources.  An object reference is the tuple identifier, version, digest of
    the coin it is built from. *)
Record ObjectReference := {
  ObjectID : string;
  SequenceNumber : N;
  ObjectDigest : string;
}.

Definition from_gql_ref (x : SuiCoinObjectGQL) : ObjectReference :=
  {| ObjectID := coin_object_id x;
     SequenceNumber := version x;
     ObjectDigest := object_digest x |}.

(** Modelled from the spec: [bcs.GasData], built positionally at the end of
    [get_gas_data] from the selected references, the paying address, the gas
    price and the budget. *)
Record GasData := {
  Payment : list ObjectReference;
  Owner : string;
  Price : Z;
  Budget : Z;
}.

(** The [ValueError]s the module raises, one constructor per [raise]
    statement, carrying the values interpolated in the message. *)
Inductive Exc :=
| ErrorRetrievingCoins (result_string : string)   (* _get_gas_objects *)
| DryRunErrors (errors : list string)             (* _dry_run_for_budget, status *)
| ErrorRunningDryRun (result_string : string)     (* _dry_run_for_budget, query *)
| TotalGasAvailable (_accum budget : Z)           (* _coins_for_budget *)
| MustUseSameType                                 (* get_gas_data, mixed list *)
| NoCoinObjectsFound.                             (* get_gas_data, nothing left *)

(** The error taxonomy of the specification. *)
Inductive ErrorKind :=
| TransportError
| RemoteQueryError
| SimulationError
| InvalidArgumentError
| NoFundingCoinsError
| InsufficientFundsError.

Definition error_kind (e : Exc) : ErrorKind :=
  match e with
  | ErrorRetrievingCoins _ => RemoteQueryError
  | DryRunErrors _ => SimulationError
  | ErrorRunningDryRun _ => TransportError
  | TotalGasAvailable _ _ => InsufficientFundsError
  | MustUseSameType => InvalidArgumentError
  | NoCoinObjectsFound => NoFundingCoinsError
  end.

(** ** The coin selector: [_coins_for_budget] *)

Definition sum_balances (coins : list SuiCoinObjectGQL) : Z :=
  foldr (λ x acc, int (balance x) + acc) 0 coins.

(** [[x for x in coins if int(x.balance) > budget]] *)
Definition coin_fit (coins : list SuiCoinObjectGQL) (budget : Z)
  : list SuiCoinObjectGQL :=
  filter (λ x, int (balance x) > budget) coins.

(** The [for _coin in coins] loop, started from the current values of
    [_accum] and [_accum_coin]; the [break] returns them as they are. *)
Fixpoint accumulate (coins : list SuiCoinObjectGQL) (budget : Z)
    (_accum : Z) (_accum_coin : list SuiCoinObjectGQL)
  : Z * list SuiCoinObjectGQL :=
  match coins with
  | [] => (_accum, _accum_coin)
  | _coin :: rest =>
      if bool_decide (_accum >= budget) then (_accum, _accum_coin)
      else accumulate rest budget
             (_accum + int (balance _coin)) (_accum_coin ++ [_coin])
  end.

(** The coins [_coin_fit] holds when the final list comprehension runs, or
    the error raised before it. *)
Definition select_coins (coins : list SuiCoinObjectGQL) (budget : Z)
  : Exc + list SuiCoinObjectGQL :=
  match coin_fit coins budget with
  | first :: _ => inr [first]
  | [] =>
      let '(_accum, _accum_coin) := accumulate coins budget 0 [] in
      if bool_decide (_accum < budget)
      then inl (TotalGasAvailable _accum budget)
      else inr _accum_coin
  end.

Definition _coins_for_budget (coins : list SuiCoinObjectGQL) (budget : Z)
  : Exc + list ObjectReference :=
  match select_coins coins budget with
  | inl e => inl e
  | inr _coin_fit => inr (from_gql_ref <$> _coin_fit)
  end.

(** ** Queries and responses *)

(** Modelled from the spec: the query nodes, [SuiRpcResult] and the response
    records below belong to [pgql_query], [pgql_types] and the client, none
    of them among the sources.  They are given the fields this module reads
    or passes, as the external-interfaces section describes them: a coin
    query answers a list of coins plus a next-page indicator, a dry run its
    execution status plus the two cost figures.

    [PagingCursor] of a paginated response. *)
Record PagingCursor := {
  hasNextPage : bool;
  endCursor : option string;
}.

(** The [tx_meta] dictionary of a dry run. *)
Record TxMeta := {
  sender : string;
  gasPrice : Z;
  gasSponsor : option string;
}.

(** The query nodes of [pgql_query] this module builds, with the keyword
    arguments it passes. *)
Inductive QueryNode :=
| GetMultipleGasObjects (coin_object_ids : list string)
| GetCoins (owner : string) (next_page : option PagingCursor)
| DryRunTransactionKind (tx_bytestr : string) (tx_meta : TxMeta)
    (skip_checks : bool).

(** [result_data] of a coin query: the page's coins and its cursor. *)
Record SuiCoinObjectsGQL := {
  data : list SuiCoinObjectGQL;
  next_cursor : PagingCursor;
}.

(** [result_data] of a dry run, flattened: [status], [computationCost] and
    [storageCost] are the entries of [transaction_block.effects] the
    estimator reads (the costs already as integers), [errors] the remote
    error list. *)
Record DryRunResultGQL := {
  status : string;
  computationCost : Z;
  storageCost : Z;
  errors : list string;
}.

Definition result_type (q : QueryNode) : Type :=
  match q with
  | GetMultipleGasObjects _ => SuiCoinObjectsGQL
  | GetCoins _ _ => SuiCoinObjectsGQL
  | DryRunTransactionKind _ _ _ => DryRunResultGQL
  end.

(** [SuiRpcResult]: [is_ok()] with its [result_data], or a failure with its
    [result_string]. *)
Inductive SuiRpcResult (R : Type) :=
| RpcOk (result_data : R)
| RpcFailed (result_string : string).
Arguments RpcOk {R} _.
Arguments RpcFailed {R} _.

Definition is_ok {R} (result : SuiRpcResult R) : bool :=
  match result with RpcOk _ => true | RpcFailed _ => false end.

Definition is_dry_run (q : QueryNode) : bool :=
  match q with DryRunTransactionKind _ _ _ => true | _ => false end.

(** Number of dry-run queries in a log. *)
Definition dry_runs (log : list QueryNode) : nat :=
  length (List.filter is_dry_run log).

(** Modelled from the spec: the signer context [SignerBlock] is declared in
    [pgql_txb_signing], not among the sources; these are the three
    attributes the gas code reads. *)
Record SignerBlock := {
  payer_address : string;
  sender_str : string;
  sponsor_str : option string;
}.

(** Modelled from the spec: [bcs.TransactionKind], of which the gas code
    only uses [serialize()]. *)
Record TransactionKind := {
  serialize : list Byte.byte;
}.

(** [base64.b64encode(...).decode()] of the Python standard library. *)
Definition b64_alphabet : string :=
  "ABCDEFGHIJKLMNOPQRSTUVWXYZabcdefghijklmnopqrstuvwxyz0123456789+/".

Definition b64_char (n : N) : ascii :=
  default "="%char (String.get (N.to_nat n) b64_alphabet).

Fixpoint b64_groups (bs : list N) : string :=
  match bs with
  | [] => EmptyString
  | [a] =>
      String (b64_char (a / 4)) (String (b64_char (a mod 4 * 16)) "==")
  | [a; b] =>
      String (b64_char (a / 4))
        (String (b64_char (a mod 4 * 16 + b / 16))
           (String (b64_char (b mod 16 * 4)) "="))
  | a :: b :: c :: rest =>
      String (b64_char (a / 4))
        (String (b64_char (a mod 4 * 16 + b / 16))
           (String (b64_char (b mod 16 * 4 + c / 64))
              (String (b64_char (c mod 64)) (b64_groups rest))))
  end%N.

Definition b64encode (bs : list Byte.byte) : string :=
  b64_groups (map Byte.to_N bs).

(** ** The client and the effects of a call *)

(** How a call ends: it returns, it raises, or (a model artefact of the
    unbounded pagination loop) the iteration bound was reached. *)
Inductive Outcome (A : Type) :=
| Returned (a : A)
| Raised (e : Exc)
| OutOfFuel.
Arguments Returned {A} _.
Arguments Raised {A} _.
Arguments OutOfFuel {A}.

Section Client.

(** The remote service behind [client.execute_query]: an abstract state and
    the answer it gives to each query, with the state it moves to. *)
Context {remote : Type}.
Variable answer : ∀ q : QueryNode, remote → SuiRpcResult (result_type q) * remote.

(** The state a call runs in: the remote service and the log of the queries
    issued so far, oldest first. *)
Record World := {
  remote_state : remote;
  issued : list QueryNode;
}.

Definition M (A : Type) : Type := World → Outcome A * World.

#[global] Instance M_ret : MRet M := λ A a w, (Returned a, w).

#[global] Instance M_bind : MBind M := λ A B f m w,
  match m w with
  | (Returned a, w') => f a w'
  | (Raised e, w') => (Raised e, w')
  | (OutOfFuel, w') => (OutOfFuel, w')
  end.

Definition raise {A} (e : Exc) : M A := λ w, (Raised e, w).

Definition out_of_fuel {A} : M A := λ w, (OutOfFuel, w).

(** [client.execute_query(with_query_node=q)] *)
Definition execute_query (q : QueryNode) : M (SuiRpcResult (result_type q)) :=
  λ w,
    let '(result, remote') := answer q (remote_state w) in
    (Returned result,
     {| remote_state := remote'; issued := issued w ++ [q] |}).

(** ** Coin inventory accessors *)

Definition _get_gas_objects (gas_ids : list string)
  : M (list SuiCoinObjectGQL) :=
  result ← execute_query (GetMultipleGasObjects gas_ids);
  match result with
  | RpcOk result_data => mret (data result_data)
  | RpcFailed result_string => raise (ErrorRetrievingCoins result_string)
  end.

(** The [while True] loop of [_get_all_gas_objects], entered with the
    current [coin_list] and the last [result]; [fuel] bounds the number of
    continuation queries. *)
Fixpoint get_all_loop (fuel : nat) (payer : string)
    (coin_list : list SuiCoinObjectGQL)
    (result : SuiRpcResult SuiCoinObjectsGQL) : M (list SuiCoinObjectGQL) :=
  match result with
  | RpcOk result_data =>
      let coin_list := coin_list ++ data result_data in
      if hasNextPage (next_cursor result_data) then
        match fuel with
        | O => out_of_fuel
        | S fuel' =>
            result ← execute_query
                       (GetCoins payer (Some (next_cursor result_data)));
            get_all_loop fuel' payer coin_list result
        end
      else mret coin_list
  | RpcFailed _ => mret coin_list
  end.

Definition _get_all_gas_objects (fuel : nat) (signing : SignerBlock)
  : M (list SuiCoinObjectGQL) :=
  let payer := payer_address signing in
  result ← execute_query (GetCoins payer None);
  get_all_loop fuel payer [] result.

(** ** Budget estimator *)

Definition _dry_run_for_budget (signing : SignerBlock) (tx_bytes : string)
    (active_gas_price : Z) : M Z :=
  result ← execute_query
             (DryRunTransactionKind tx_bytes
                {| sender := sender_str signing;
                   gasPrice := active_gas_price;
                   gasSponsor := sponsor_str signing |}
                false);
  match result with
  | RpcOk result_data =>
      if bool_decide (status result_data = "SUCCESS") then
        let c_cost := computationCost result_data in
        let s_cost := storageCost result_data in
        mret (c_cost + s_cost)
      else raise (DryRunErrors (errors result_data))
  | RpcFailed result_string => raise (ErrorRunningDryRun result_string)
  end.

(** ** Gas data assembler *)

Definition is_str (x : string + SuiCoinObjectGQL) : bool :=
  match x with inl _ => true | inr _ => false end.

Definition is_coin (x : string + SuiCoinObjectGQL) : bool :=
  match x with inl _ => false | inr _ => true end.

Definition the_strs (l : list (string + SuiCoinObjectGQL)) : list string :=
  omap (λ x, match x with inl s => Some s | inr _ => None end) l.

Definition the_coins (l : list (string + SuiCoinObjectGQL))
  : list SuiCoinObjectGQL :=
  omap (λ x, match x with inl _ => None | inr c => Some c end) l.

(** "Get available coins": the first [if]/[else] of [get_gas_data].  An
    optional list is true when it is neither [None] nor empty. *)
Definition available_coins (fuel : nat) (signing : SignerBlock)
    (use_coins : option (list (string + SuiCoinObjectGQL)))
  : M (list SuiCoinObjectGQL) :=
  match use_coins with
  | Some (x :: l) =>
      let use_coins := x :: l in
      if forallb is_str use_coins then _get_gas_objects (the_strs use_coins)
      else if negb (forallb is_coin use_coins) then raise MustUseSameType
      else mret (the_coins use_coins)
  | _ => _get_all_gas_objects fuel signing
  end.

(** The rest of [get_gas_data].  [if not budget] holds for [None] and for
    [0]. *)
Definition get_gas_data (fuel : nat) (signing : SignerBlock)
    (budget : option Z)
    (use_coins : option (list (string + SuiCoinObjectGQL)))
    (objects_in_use : gset string) (active_gas_price : Z)
    (tx_kind : TransactionKind) : M GasData :=
  use_coins ← available_coins fuel signing use_coins;
  budget ← match budget with
           | Some b => if b =? 0
                       then _dry_run_for_budget signing
                              (b64encode (serialize tx_kind)) active_gas_price
                       else mret b
           | None => _dry_run_for_budget signing
                       (b64encode (serialize tx_kind)) active_gas_price
           end;
  let use_coins :=
    filter (λ x, coin_object_id x ∉ objects_in_use) use_coins in
  match use_coins with
  | _ :: _ =>
      match _coins_for_budget use_coins budget with
      | inr payment =>
          mret {| Payment := payment;
                  Owner := payer_address signing;
                  Price := active_gas_price;
                  Budget := budget |}
      | inl e => raise e
      end
  | [] => raise NoCoinObjectsFound
  end.

(** ** A paginated exchange, as the service conducts it *)

(** How a paginated exchange ends: a page reports that no page follows, or a
    query fails. *)
Inductive Ending := NoFurtherPages | QueryFailed.

(** [exchange payer s cursor queries pages ending s']: asked for the coins
    of [payer] from [cursor] on, each time at the cursor of the page before,
    the service in state [s] receives [queries] and answers the successful
    [pages], in this order, every page but a final one announcing a next
    page; the exchange ends as [ending] says and leaves the service in
    [s']. *)
Inductive exchange (payer : string)
  : remote → option PagingCursor → list QueryNode →
    list SuiCoinObjectsGQL → Ending → remote → Prop :=
| exchange_last s cursor page s' :
    answer (GetCoins payer cursor) s = (RpcOk page, s') →
    hasNextPage (next_cursor page) = false →
    exchange payer s cursor [GetCoins payer cursor] [page] NoFurtherPages s'
| exchange_failed s cursor result_string s' :
    answer (GetCoins payer cursor) s = (RpcFailed result_string, s') →
    exchange payer s cursor [GetCoins payer cursor] [] QueryFailed s'
| exchange_next s cursor page s1 queries pages ending s' :
    answer (GetCoins payer cursor) s = (RpcOk page, s1) →
    hasNextPage (next_cursor page) = true →
    exchange payer s1 (Some (next_cursor page)) queries pages ending s' →
    exchange payer s cursor (GetCoins payer cursor :: queries)
      (page :: pages) ending s'.

(** All the coins of a sequence of pages. *)
Definition coins_of (pages : list SuiCoinObjectsGQL) : list SuiCoinObjectGQL :=
  concat (data <$> pages).

End Client.

Arguments remote_state {remote} _.
Arguments issued {remote} _.

(** ** Sample coins and sample remote services *)

Definition coin (id : string) (bal : N) : SuiCoinObjectGQL :=
  {| coin_object_id := id; version := 1%N; object_digest := "digest";
     balance := bal |}.

Definition c1 := coin "0xc1" 50.
Definition c2 := coin "0xc2" 30.
Definition c3 := coin "0xc3" 40.
Definition big := coin "0xb1" 100.

Definition last_page (coins : list SuiCoinObjectGQL) : SuiCoinObjectsGQL :=
  {| data := coins;
     next_cursor := {| hasNextPage := false; endCursor := None |} |}.

Definition page_before (coins : list SuiCoinObjectGQL) (cursor : string)
  : SuiCoinObjectsGQL :=
  {| data := coins;
     next_cursor := {| hasNextPage := true; endCursor := Some cursor |} |}.

(** A service holding [c1], [c2] on a first page and [c3] on a second one,
    whose dry runs succeed with costs 40 and 20.  Its state counts the
    queries it has answered. *)
Definition ledger_answer (q : QueryNode) (n : nat)
  : SuiRpcResult (result_type q) * nat :=
  match q with
  | GetMultipleGasObjects ids =>
      (RpcOk (last_page
                (filter (λ x, coin_object_id x ∈ ids) [c1; c2; c3])), S n)
  | GetCoins _ None => (RpcOk (page_before [c1; c2] "p2"), S n)
  | GetCoins _ (Some _) => (RpcOk (last_page [c3]), S n)
  | DryRunTransactionKind _ _ _ =>
      (RpcOk {| status := "SUCCESS"; computationCost := 40;
                storageCost := 20; errors := [] |}, S n)
  end.

(** The same service, failing every query after the first it answers. *)
Definition flaky_answer (q : QueryNode) (n : nat)
  : SuiRpcResult (result_type q) * nat :=
  match n with
  | O => ledger_answer q n
  | S _ => (RpcFailed "connection lost", S n)
  end.

(** A service that fails every query. *)
Definition down_answer (q : QueryNode) (n : nat)
  : SuiRpcResult (result_type q) * nat :=
  (RpcFailed "unreachable", S n).

Definition fresh : World := {| remote_state := O; issued := [] |}.

Definition alice : SignerBlock :=
  {| payer_address := "0xa11ce"; sender_str := "0xa11ce";
     sponsor_str := None |}.

Definition some_tx : TransactionKind :=
  {| serialize := [Byte.x4d; Byte.x61; Byte.x6e] |}.

(** The skip-checks flag a query carries, if it is a dry run. *)
Definition skip_checks_of (q : QueryNode) : option bool :=
  match q with
  | DryRunTransactionKind _ _ skip_checks => Some skip_checks
  | _ => None
  end.

(** The dry-run query [get_gas_data] has the estimator issue. *)
Definition estimate_query (signing : SignerBlock) (active_gas_price : Z)
    (tx_kind : TransactionKind) : QueryNode :=
  DryRunTransactionKind (b64encode (serialize tx_kind))
    {| sender := sender_str signing;
       gasPrice := active_gas_price;
       gasSponsor := sponsor_str signing |} false.

(** * Profile groups: [pysui/sui/sui_pgql/config/confgroup.py] *)

Module ConfGroup.

(** The dataclasses of the module.  Their instances are always true in a
    condition: a dataclass defines neither [__bool__] nor [__len__]. *)
Record ProfileAlias := {
  alias : string;
  public_key_base64 : string;
}.

Record ProfileKey := {
  private_key_base64 : string;
}.

Record Profile := {
  profile_name : string;
  url : string;
  faucet_url : option string;
  faucet_status_url : option string;
}.

#[global] Instance ProfileAlias_eq_dec : EqDecision ProfileAlias.
Proof. solve_decision. Defined.

#[global] Instance ProfileKey_eq_dec : EqDecision ProfileKey.
Proof. solve_decision. Defined.

#[global] Instance Profile_eq_dec : EqDecision Profile.
Proof. solve_decision. Defined.

(** [replace_alias_name] assigns to a field of a [ProfileAlias] held in
    [alias_list], so these are kept as objects: the list holds references,
    and the store gives each object its current fields.  Two positions
    holding the same reference hold the same object. *)
Definition ref := nat.

Record ProfileGroup := {
  group_name : string;
  using_profile : string;
  using_address : string;
  alias_list : list ref;
  key_list : list ProfileKey;
  address_list : list string;
  profiles : list Profile;
}.

Record State := {
  self : ProfileGroup;
  objects : ref → ProfileAlias;
}.

(** The exceptions of the module, one constructor per [raise] statement
    (all of them [ValueError]), and those of the list operations. *)
Inductive Exc :=
| AliasNotFound (alias : string)           (* Alias ... not found in group *)
| AddressNotFound (address : string)       (* Address ... not found in group *)
| AliasAlreadyExists (alias : string)      (* replace_alias_name *)
| ProfileNotFound (name : string)          (* active_profile, getter *)
| ProfileDoesNotExist (name : string)      (* active_profile, setter *)
| ProfileAlreadyExists (name : string)     (* add_profile *)
| AliasExistsForNewKey (alias : string)    (* add_keypair_and_parts *)
| KeystringAlreadyExists (key : string)    (* add_keypair_and_parts *)
| NotInList                                (* list.index: ValueError *)
| IndexOutOfRange.                         (* list[i]: IndexError *)

Definition Method (A : Type) : Type := State → (Exc + A) * State.

#[global] Instance Method_ret : MRet Method := λ A a st, (inr a, st).

#[global] Instance Method_bind : MBind Method := λ A B f m st,
  match m st with
  | (inr a, st') => f a st'
  | (inl e, st') => (inl e, st')
  end.

Definition raises {A} (e : Exc) : Method A := λ st, (inl e, st).

Definition get {A} (f : State → A) : Method A := λ st, (inr (f st), st).

Definition lift {A} (r : Exc + A) : Method A := λ st, (r, st).

(** [next(filter(pred, l), False)]: the first element the predicate holds
    for, if any. *)
Definition next_filter {A} (P : A → Prop) `{∀ x, Decision (P x)}
    (l : list A) : option A :=
  head (filter P l).

(** [l.index(x)] for a list of strings. *)
Definition index (l : list string) (x : string) : Exc + nat :=
  match list_find (λ y, y = x) l with
  | Some (i, _) => inr i
  | None => inl NotInList
  end.

(** [l.index(x)] for a list of [ProfileAlias] objects: the first position
    holding [x] itself or an object equal to it, field by field. *)
Definition index_object (objects : ref → ProfileAlias) (l : list ref)
    (x : ref) : Exc + nat :=
  match list_find (λ y, y = x ∨ objects y = objects x) l with
  | Some (i, _) => inr i
  | None => inl NotInList
  end.

(** [l[i]] for a position [i] that is not negative. *)
Definition item {A} (l : list A) (i : nat) : Exc + A :=
  match l !! i with
  | Some x => inr x
  | None => inl IndexOutOfRange
  end.

(** Python truth value of a string. *)
Definition truthy (s : string) : bool :=
  negb (String.eqb s "").

Definition _profile_exists (name : string) (st : State) : option Profile :=
  next_filter (λ prf, profile_name prf = name) (profiles (self st)).

Definition _alias_exists (alias_name : string) (st : State) : option ref :=
  next_filter (λ ally, alias (objects st ally) = alias_name)
    (alias_list (self st)).

Definition _address_exists (address : string) (st : State) : option string :=
  next_filter (λ addy, addy = address) (address_list (self st)).

Definition _key_exists (key_string : string) (st : State)
  : option ProfileKey :=
  next_filter (λ pkey, private_key_base64 pkey = key_string)
    (key_list (self st)).

Definition set_using_address (address : string) : Method unit := λ st,
  (inr (),
   {| self := {| group_name := group_name (self st);
                 using_profile := using_profile (self st);
                 using_address := address;
                 alias_list := alias_list (self st);
                 key_list := key_list (self st);
                 address_list := address_list (self st);
                 profiles := profiles (self st) |};
      objects := objects st |}).

Definition set_using_profile (name : string) : Method unit := λ st,
  (inr (),
   {| self := {| group_name := group_name (self st);
                 using_profile := name;
                 using_address := using_address (self st);
                 alias_list := alias_list (self st);
                 key_list := key_list (self st);
                 address_list := address_list (self st);
                 profiles := profiles (self st) |};
      objects := objects st |}).

(** [x.alias = name] for the object [x]. *)
Definition set_alias (x : ref) (name : string) : Method unit := λ st,
  (inr (),
   {| self := self st;
      objects :=
        <[x := {| alias := name;
                  public_key_base64 := public_key_base64 (objects st x) |}]>
          (objects st) |}).

(** The three [append]s of [add_keypair_and_parts]. *)
Definition populate (new_address : string) (new_key : ProfileKey)
    (new_alias : ref) : Method unit := λ st,
  (inr (),
   {| self := {| group_name := group_name (self st);
                 using_profile := using_profile (self st);
                 using_address := using_address (self st);
                 alias_list := alias_list (self st) ++ [new_alias];
                 key_list := key_list (self st) ++ [new_key];
                 address_list := address_list (self st) ++ [new_address];
                 profiles := profiles (self st) |};
      objects := objects st |}).

Definition append_profile (new_prf : Profile) : Method unit := λ st,
  (inr (),
   {| self := {| group_name := group_name (self st);
                 using_profile := using_profile (self st);
                 using_address := using_address (self st);
                 alias_list := alias_list (self st);
                 key_list := key_list (self st);
                 address_list := address_list (self st);
                 profiles := profiles (self st) ++ [new_prf] |};
      objects := objects st |}).

(** [active_address], getter and setter. *)
Definition active_address : Method string :=
  get (λ st, using_address (self st)).

Definition set_active_address (change_to : string) : Method string :=
  address_list ← get (λ st, address_list (self st));
  _ ← lift (index address_list change_to);
  _ ← set_using_address change_to;
  mret change_to.

(** [active_alias], getter and setter. *)
Definition active_alias : Method string :=
  st ← get id;
  adex ← lift (index (address_list (self st)) (using_address (self st)));
  ally ← lift (item (alias_list (self st)) adex);
  mret (alias (objects st ally)).

Definition set_active_alias (change_to : string) : Method string :=
  st ← get id;
  match _alias_exists change_to st with
  | Some _res =>
      aliindx ← lift (index_object (objects st) (alias_list (self st)) _res);
      address ← lift (item (address_list (self st)) aliindx);
      _ ← set_using_address address;
      mret (alias (objects st _res))
  | None => raises (AliasNotFound change_to)
  end.

Definition address_for_alias (alias : string) : Method string :=
  st ← get id;
  match _alias_exists alias st with
  | Some _res =>
      aliindx ← lift (index_object (objects st) (alias_list (self st)) _res);
      lift (item (address_list (self st)) aliindx)
  | None => raises (AliasNotFound alias)
  end.

(** [if _res] on the string [_address_exists] found: an empty string is
    false, like no string at all. *)
Definition alias_for_address (address : string) : Method ref :=
  st ← get id;
  match _address_exists address st with
  | Some _res =>
      if truthy _res then
        adindex ← lift (index (address_list (self st)) _res);
        lift (item (alias_list (self st)) adindex)
      else raises (AddressNotFound address)
  | None => raises (AddressNotFound address)
  end.

Definition alias_name_for_address (address : string) : Method string :=
  st ← get id;
  match _address_exists address st with
  | Some _res =>
      if truthy _res then
        adindex ← lift (index (address_list (self st)) _res);
        ally ← lift (item (alias_list (self st)) adindex);
        mret (alias (objects st ally))
      else raises (AddressNotFound address)
  | None => raises (AddressNotFound address)
  end.

Definition replace_alias_name (from_alias to_alias : string) : Method string :=
  st ← get id;
  match _alias_exists from_alias st with
  | Some _res =>
      match _alias_exists to_alias st with
      | None =>
          aliindx ← lift (index_object (objects st) (alias_list (self st))
                            _res);
          _ ← set_alias _res to_alias;
          lift (item (address_list (self st)) aliindx)
      | Some _rese => raises (AliasAlreadyExists to_alias)
      end
  | None => raises (AliasNotFound from_alias)
  end.

(** [active_profile], getter and setter. *)
Definition active_profile : Method Profile :=
  st ← get id;
  match _profile_exists (using_profile (self st)) st with
  | Some _res => mret _res
  | None => raises (ProfileNotFound (using_profile (self st)))
  end.

Definition set_active_profile (change_to : string) : Method Profile :=
  st ← get id;
  match _profile_exists change_to st with
  | Some _res => _ ← set_using_profile change_to; mret _res
  | None => raises (ProfileDoesNotExist change_to)
  end.

(** [add_keypair_and_parts]: the final [raise] is not under the [if], so it
    is reached on every path that did not raise before. *)
Definition add_keypair_and_parts (new_address : string) (new_alias : ref)
    (new_key : ProfileKey) (make_active : bool) : Method string :=
  st ← get id;
  _ ← match _key_exists (private_key_base64 new_key) st with
      | None =>
          match _alias_exists (alias (objects st new_alias)) st with
          | Some _ =>
              raises (AliasExistsForNewKey (alias (objects st new_alias)))
          | None =>
              _ ← populate new_address new_key new_alias;
              if make_active then set_using_address new_address
              else mret ()
          end
      | Some _ => mret ()
      end;
  raises (KeystringAlreadyExists (private_key_base64 new_key)).

Definition add_profile (new_prf : Profile) (make_active : bool) : Method unit :=
  st ← get id;
  match _profile_exists (profile_name new_prf) st with
  | Some _res => raises (ProfileAlreadyExists (profile_name new_prf))
  | None =>
      _ ← append_profile new_prf;
      if make_active
      then _ ← set_active_profile (profile_name new_prf); mret ()
      else mret ()
  end.

(** The alias names of a group, in list order. *)
Definition alias_names (st : State) : list string :=
  (λ ally, alias (objects st ally)) <$> alias_list (self st).

(** The three parallel lists have one length. *)
Definition aligned (st : State) : Prop :=
  length (address_list (self st)) = length (alias_list (self st)) ∧
  length (key_list (self st)) = length (alias_list (self st)).

(** A sample group of two identities and one profile. *)
Definition sample_objects : ref → ProfileAlias := λ r,
  match r with
  | O => {| alias := "able"; public_key_base64 := "AKey0" |}
  | 1%nat => {| alias := "baker"; public_key_base64 := "AKey1" |}
  | _ => {| alias := "charlie"; public_key_base64 := "AKey2" |}
  end.

Definition devnet : Profile :=
  {| profile_name := "devnet"; url := "https://devnet";
     faucet_url := None; faucet_status_url := None |}.

Definition testnet : Profile :=
  {| profile_name := "testnet"; url := "https://testnet";
     faucet_url := None; faucet_status_url := None |}.

Definition sample : State :=
  {| self := {| group_name := "sui_gql_config";
                using_profile := "devnet";
                using_address := "0xa";
                alias_list := [0%nat; 1%nat];
                key_list := [ {| private_key_base64 := "k0" |};
                              {| private_key_base64 := "k1" |} ];
                address_list := ["0xa"; "0xb"];
                profiles := [devnet] |};
     objects := sample_objects |}.

End ConfGroup.

(** * Conversion utilities: [pysui/sui/sui_utils.py] *)

Module SuiUtils.

(** A [str] is modelled by the list of its characters; characters beyond
    U+00FF have no counterpart in [ascii] and are left out ([unhexlify]
    rejects them like every other character that is not a hex digit). *)
Abbreviation str := (list ascii).

Inductive Exc :=
| ExpectedByteCount (byte_count byte_res : Z)  (* int_to_listu8: ValueError *)
| OverflowError         (* int.to_bytes of a negative integer *)
| HexError.             (* binascii.unhexlify: odd length or not a hex digit *)

(** [int.bit_length()] *)
Definition bit_length (n : Z) : Z :=
  if n =? 0 then 0 else Z.log2 (Z.abs n) + 1.

(** [n.to_bytes(length, "little")] for [n] that is not negative and fits. *)
Fixpoint to_bytes_little (length : nat) (n : Z) : list Z :=
  match length with
  | O => []
  | S length' => n mod 256 :: to_bytes_little length' (n / 256)
  end.

(** [math.ceil(in_el.bit_length() / 8)] is computed on floats; it is exact,
    and equal to the integer quotient below, for every bit length a float
    holds exactly. *)
Definition int_to_listu8 (byte_count in_el : Z) : Exc + list Z :=
  let byte_res := (bit_length in_el + 7) / 8 in
  if byte_res =? byte_count then
    if in_el <? 0 then inl OverflowError
    else inr (to_bytes_little (Z.to_nat byte_res) in_el)
  else inl (ExpectedByteCount byte_count byte_res).

(** The value of a hex digit, upper or lower case. *)
Definition hex_digit (c : ascii) : option Z :=
  let n := Z.of_N (N_of_ascii c) in
  if (48 <=? n) && (n <=? 57) then Some (n - 48)
  else if (97 <=? n) && (n <=? 102) then Some (n - 87)
  else if (65 <=? n) && (n <=? 70) then Some (n - 55)
  else None.

(** [binascii.unhexlify] followed by [[int(x) for x in ...]]. *)
Fixpoint unhexlify (s : str) : Exc + list Z :=
  match s with
  | [] => inr []
  | [_] => inl HexError
  | a :: b :: rest =>
      match hex_digit a, hex_digit b, unhexlify rest with
      | Some hi, Some lo, inr bytes => inr (hi * 16 + lo :: bytes)
      | _, _, _ => inl HexError
      end
  end.

(** [s.count("x")] and [s.count("X")] *)
Definition count (c : ascii) (s : str) : nat :=
  length (filter (λ y, y = c) s).

(** [s.zfill(width)]: zeros on the left up to [width], after a leading
    sign if there is one. *)
Definition zfill (width : nat) (s : str) : str :=
  let zeros := replicate (width - length s) "0"%char in
  match s with
  | c :: rest =>
      if decide (c = "+"%char ∨ c = "-"%char) then c :: zeros ++ rest
      else zeros ++ s
  | [] => zeros
  end.

Definition hexstring_to_list (indata : str) (default_fill_length : Z)
  : Exc + list Z :=
  let indata :=
    if Z.of_nat (length indata) <? default_fill_length then
      let indata :=
        if negb (Nat.eqb (count "x"%char indata) 0)
           || negb (Nat.eqb (count "X"%char indata) 0)
        then drop 2 indata else indata in
      "0"%char :: "x"%char :: zfill (Z.to_nat default_fill_length) indata
    else indata in
  unhexlify (drop 2 indata).

(** The integer a list of bytes stands for, least significant byte first
    and most significant byte first. *)
Definition little_endian (bytes : list Z) : Z :=
  foldr (λ b acc, b + 256 * acc) 0 bytes.

Definition big_endian (bytes : list Z) : Z :=
  foldl (λ acc b, acc * 256 + b) 0 bytes.

(** The integer a string of hex digits stands for. *)
Definition hex_value (s : str) : Z :=
  foldl (λ acc c, acc * 16 + default 0 (hex_digit c)) 0 s.

Definition is_hex (s : str) : Prop :=
  Forall (λ c, is_Some (hex_digit c)) s.

(** ** Package digests *)

(** [bytes] are compared byte by byte, a proper prefix coming first. *)
Fixpoint bytes_leb (a b : list Z) : bool :=
  match a, b with
  | [], _ => true
  | _ :: _, [] => false
  | x :: a', y :: b' =>
      if x <? y then true else if y <? x then false else bytes_leb a' b'
  end.

Definition bytes_le (a b : list Z) : Prop := bytes_leb a b = true.

#[global] Instance bytes_le_dec : RelDecision bytes_le.
Proof. intros a b. unfold bytes_le. apply _. Defined.

(** The dataclass [CompiledPackage]; the last two fields are [None] until a
    digest function fills them. *)
Record CompiledPackage := {
  project_name : string;
  project_id : string;
  project_source_digest : list Z;
  dependencies : list (list ascii);
  compiled_modules : option (list string);
  package_digest : option (list Z);
}.

(** The second loop of both digest functions:
    [binascii.unhexlify(dep_str[2:])] for every dependency, in order. *)
Fixpoint unhexlify_all (dependencies : list (list ascii))
  : Exc + list (list Z) :=
  match dependencies with
  | [] => inr []
  | dep_str :: rest =>
      match unhexlify (drop 2 dep_str) with
      | inl e => inl e
      | inr dep_bytes =>
          match unhexlify_all rest with
          | inl e => inl e
          | inr others => inr (dep_bytes :: others)
          end
      end
  end.

(** [base64.b64encode(mr_bytes).decode()] *)
Definition b64 (mr_bytes : list Z) : string :=
  b64_groups (Z.to_N <$> mr_bytes).

Section Digest.

(** [hashlib.blake2b(digest_size=32)]: the digest of all the bytes fed to
    [update], taken as a function. *)
Variable blake2b : list Z → list Z.

(** [all_bytes.sort()], then one hasher fed block by block. *)
Definition digest_sorted (all_bytes : list (list Z)) : list Z :=
  blake2b (concat (merge_sort bytes_le all_bytes)).

(** A module reader is modelled by the bytes its [getvalue()] gives. *)
Definition _package_digest (package : CompiledPackage)
    (readers : list (list Z)) : Exc + CompiledPackage :=
  let mod_strs := b64 <$> readers in
  match unhexlify_all (dependencies package) with
  | inl e => inl e
  | inr dep_bytes =>
      let all_bytes := readers ++ dep_bytes in
      inr {| project_name := project_name package;
             project_id := project_id package;
             project_source_digest := project_source_digest package;
             dependencies := dependencies package;
             compiled_modules := Some mod_strs;
             package_digest := Some (digest_sorted all_bytes) |}
  end.

Definition _new_package_digest (package : CompiledPackage)
    (readers : list (list Z)) : Exc + CompiledPackage :=
  let mod_strs := b64 <$> readers in
  match unhexlify_all (dependencies package) with
  | inl e => inl e
  | inr dep_bytes =>
      let all_bytes := (blake2b <$> readers) ++ dep_bytes in
      inr {| project_name := project_name package;
             project_id := project_id package;
             project_source_digest := project_source_digest package;
             dependencies := dependencies package;
             compiled_modules := Some mod_strs;
             package_digest := Some (digest_sorted all_bytes) |}
  end.

End Digest.

(** A sample package and two dependency identifiers. *)
Definition tracker (deps : list (list ascii)) : CompiledPackage :=
  {| project_name := "tracker"; project_id := "0x0";
     project_source_digest := []; dependencies := deps;
     compiled_modules := None; package_digest := None |}.

Definition dep_one : list ascii := list_ascii_of_string "0x01".
Definition dep_two : list ascii := list_ascii_of_string "0x02".

End SuiUtils.

(** * Properties *)

(** ** The coin selector *)

Section Selector.

Implicit Types (coins : list SuiCoinObjectGQL) (budget : Z).

Lemma sum_balances_app coins1 coins2 :
  sum_balances (coins1 ++ coins2) = sum_balances coins1 + sum_balances coins2.
Proof.
  induction coins1 as [|x coins1 IH]; simpl; [done|].
  rewrite IH. lia.
Qed.

Lemma sum_balances_nonneg coins : 0 ≤ sum_balances coins.
Proof.
  induction coins as [|x coins IH]; simpl; [done|].
  unfold int. lia.
Qed.

Lemma balance_le_sum coins x : x ∈ coins → int (balance x) ≤ sum_balances coins.
Proof.
  intros (l1 & l2 & ->)%list_elem_of_split.
  rewrite sum_balances_app. simpl.
  pose proof (sum_balances_nonneg l1). pose proof (sum_balances_nonneg l2).
  lia.
Qed.

(** What the accumulation loop computes: it takes a prefix [taken] of the
    coins, stops only at the end of the list or once the threshold is met,
    and had not met the threshold before it took its last coin. *)
Lemma accumulate_spec coins budget _accum _accum_coin :
  ∃ taken rest,
    coins = taken ++ rest ∧
    accumulate coins budget _accum _accum_coin
      = (_accum + sum_balances taken, _accum_coin ++ taken) ∧
    (rest = [] ∨ budget ≤ _accum + sum_balances taken) ∧
    (∀ init last, taken = init ++ [last] →
                  _accum + sum_balances init < budget).
Proof.
  revert _accum _accum_coin.
  induction coins as [|x coins IH]; intros a l.
  - exists [], []. simpl. rewrite Z.add_0_r, app_nil_r.
    repeat split; auto. intros [|??] ? ?; discriminate.
  - simpl. case_bool_decide as Hge.
    + exists [], (x :: coins). simpl. rewrite Z.add_0_r, app_nil_r.
      repeat split; [right; lia|]. intros [|??] ? ?; discriminate.
    + destruct (IH (a + int (balance x)) (l ++ [x]))
        as (taken & rest & -> & Hacc & Hstop & Hmin).
      exists (x :: taken), rest. simpl.
      rewrite Hacc, <- app_assoc. simpl.
      repeat split.
      * f_equal. lia.
      * destruct Hstop; [by left | right; lia].
      * intros [|y init] last Heq; simplify_eq/=; [lia|].
        specialize (Hmin init last eq_refl). lia.
Qed.

Lemma coin_fit_nil_le coins budget x :
  coin_fit coins budget = [] → x ∈ coins → int (balance x) ≤ budget.
Proof.
  intros Hnil Hx.
  destruct (decide (int (balance x) > budget)) as [Hgt|]; [|lia].
  by destruct (filter_nil_not_elem_of _ _ x Hnil Hgt).
Qed.

(** The first coin over the budget, with the coins before it. *)
Lemma coin_fit_first coins budget first others :
  coin_fit coins budget = first :: others →
  ∃ before after,
    coins = before ++ first :: after ∧
    Forall (λ x, int (balance x) ≤ budget) before ∧
    budget < int (balance first).
Proof.
  unfold coin_fit. revert first others.
  induction coins as [|x coins IH]; intros first others; [done|].
  rewrite filter_cons. case_decide as Hx.
  - intros [= -> _]. exists [], coins. repeat split; [constructor | lia].
  - intros (before & after & -> & Hbefore & Hfirst)%IH.
    exists (x :: before), after. repeat split; [|done].
    constructor; [lia | done].
Qed.

Lemma coin_fit_app_first before first after budget :
  Forall (λ x, int (balance x) ≤ budget) before →
  budget < int (balance first) →
  coin_fit (before ++ first :: after) budget
    = first :: coin_fit after budget.
Proof.
  intros Hbefore Hfirst. unfold coin_fit. rewrite filter_app.
  replace (filter _ before) with (@nil SuiCoinObjectGQL).
  - simpl. rewrite filter_cons_True; [done | lia].
  - symmetry. induction Hbefore as [|x l Hx _ IH]; [done|].
    rewrite filter_cons_False; [done | lia].
Qed.

(** The selection is made of candidate coins. *)
Lemma select_coins_subseteq coins budget selection :
  select_coins coins budget = inr selection → selection ⊆ coins.
Proof.
  unfold select_coins.
  destruct (coin_fit coins budget) as [|first others] eqn:Hfit.
  - destruct (accumulate_spec coins budget 0 [])
      as (taken & rest & -> & -> & _ & _).
    simpl. case_bool_decide; [done|]. intros ?; simplify_eq.
    intros x Hx. apply elem_of_app. by left.
  - apply coin_fit_first in Hfit as (before & after & -> & _ & _).
    intros ?; simplify_eq.
    intros x ->%list_elem_of_singleton. apply elem_of_app. right. left.
Qed.

(** C1: for a non-empty coin list and a positive budget that the coins'
    total covers, the selector returns (it does not raise) the references of
    a selection whose balances sum to at least the budget; the selection
    without its last-added coin sums to strictly less than the budget, and on
    the accumulation path (no coin above the budget) the selection is a
    prefix of the coins, in input order. *)
Theorem select_covers_budget_minimally coins budget :
  coins ≠ [] → 0 < budget → budget ≤ sum_balances coins →
  ∃ selection init last,
    _coins_for_budget coins budget = inr (from_gql_ref <$> selection) ∧
    selection `sublist_of` coins ∧
    budget ≤ sum_balances selection ∧
    selection = init ++ [last] ∧
    sum_balances init < budget ∧
    (coin_fit coins budget = [] → selection `prefix_of` coins).
Proof.
  intros _ Hpos Hsum. unfold _coins_for_budget, select_coins.
  destruct (coin_fit coins budget) as [|first others] eqn:Hfit.
  - destruct (accumulate_spec coins budget 0 [])
      as (taken & rest & -> & -> & Hstop & Hmin).
    simpl in *.
    assert (budget ≤ sum_balances taken) as Hcover.
    { destruct Hstop as [->|?]; [by rewrite app_nil_r in Hsum | done]. }
    rewrite bool_decide_eq_false_2 by lia.
    destruct (decide (taken = [])) as [->|Hne]; [simpl in Hcover; lia|].
    destruct (exists_last Hne) as (init & last & ->).
    exists (init ++ [last]), init, last.
    repeat split; [by apply sublist_inserts_r | done | | ].
    + specialize (Hmin init last eq_refl). lia.
    + intros _. by exists rest.
  - apply coin_fit_first in Hfit as (before & after & -> & _ & Hfirst).
    exists [first], [], first. simpl.
    repeat split; [| lia | lia | done].
    apply sublist_inserts_l, sublist_skip, sublist_nil_l.
Qed.

(** C2: when some coin's balance is strictly greater than the (positive)
    budget, the selector returns exactly one reference, that of the first
    such coin in input order, whatever the other coins are; a single coin
    whose balance equals the budget is not picked by that shortcut and is
    selected by the accumulation loop. *)
Theorem select_first_coin_over_budget budget :
  0 < budget →
  (∀ coins x, x ∈ coins → budget < int (balance x) →
     ∃ before first after,
       coins = before ++ first :: after ∧
       Forall (λ y, int (balance y) ≤ budget) before ∧
       budget < int (balance first) ∧
       _coins_for_budget coins budget = inr [from_gql_ref first]) ∧
  (∀ x, int (balance x) = budget →
     coin_fit [x] budget = [] ∧
     accumulate [x] budget 0 [] = (budget, [x]) ∧
     _coins_for_budget [x] budget = inr [from_gql_ref x]).
Proof.
  intros Hpos. split.
  - intros coins x Hx Hgt.
    destruct (coin_fit coins budget) as [|first others] eqn:Hfit.
    { pose proof (coin_fit_nil_le _ _ _ Hfit Hx). lia. }
    destruct (coin_fit_first _ _ _ _ Hfit)
      as (before & after & Hcoins & Hbefore & Hfirst).
    exists before, first, after. repeat split; try done.
    unfold _coins_for_budget, select_coins. by rewrite Hfit.
  - intros x Hx.
    assert (coin_fit [x] budget = []) as Hfit.
    { unfold coin_fit. rewrite filter_cons_False, filter_nil; [done | lia]. }
    assert (accumulate [x] budget 0 [] = (budget, [x])) as Hacc.
    { simpl. rewrite bool_decide_eq_false_2 by lia. by rewrite Hx. }
    repeat split; try done.
    unfold _coins_for_budget, select_coins. rewrite Hfit, Hacc.
    by rewrite bool_decide_eq_false_2 by lia.
Qed.

(** C3: when the coins' total balance is strictly less than the positive
    budget (the empty list included), the selector raises the
    insufficient-funds error carrying the sum found, which is the total, and
    the budget required; no selection is returned. *)
Theorem select_fails_when_total_short coins budget :
  0 < budget → sum_balances coins < budget →
  _coins_for_budget coins budget
    = inl (TotalGasAvailable (sum_balances coins) budget) ∧
  error_kind (TotalGasAvailable (sum_balances coins) budget)
    = InsufficientFundsError.
Proof.
  intros Hpos Hshort. split; [|done].
  unfold _coins_for_budget, select_coins.
  destruct (coin_fit coins budget) as [|first others] eqn:Hfit.
  - destruct (accumulate_spec coins budget 0 [])
      as (taken & rest & -> & -> & Hstop & _).
    simpl in *. rewrite sum_balances_app in *.
    pose proof (sum_balances_nonneg rest).
    destruct Hstop as [->|?]; [|lia].
    simpl. rewrite Z.add_0_r in *.
    by rewrite bool_decide_eq_true_2 by lia.
  - apply coin_fit_first in Hfit as (before & after & -> & _ & Hfirst).
    assert (first ∈ before ++ first :: after) as Hin by set_solver.
    apply balance_le_sum in Hin. lia.
Qed.

End Selector.

(** ** Calls that reach the remote service *)

Section Resolution.

Context {remote : Type}.
Variable answer : ∀ q : QueryNode, remote → SuiRpcResult (result_type q) * remote.

Implicit Types (w : @World remote) (log : list QueryNode).

Lemma dry_runs_app log1 log2 :
  dry_runs (log1 ++ log2) = (dry_runs log1 + dry_runs log2)%nat.
Proof. unfold dry_runs. by rewrite List.filter_app, length_app. Qed.

(** One query: the service answers, its state moves, the log grows. *)
Lemma bind_execute_query {B} q (k : SuiRpcResult (result_type q) → M B) w :
  (execute_query answer q ≫= k) w
  = k (answer q (remote_state w)).1
      {| remote_state := (answer q (remote_state w)).2;
         issued := issued w ++ [q] |}.
Proof.
  unfold mbind, M_bind, execute_query.
  by destruct (answer q (remote_state w)).
Qed.

Lemma bind_run {A B} (m : M A) (k : A → M B) w :
  (m ≫= k) w
  = match m w with
    | (Returned a, w') => k a w'
    | (Raised e, w') => (Raised e, w')
    | (OutOfFuel, w') => (OutOfFuel, w')
    end.
Proof. done. Qed.

(** A continuation that leaves the world alone leaves it as the first part
    of the call left it. *)
Lemma bind_unchanged_after {A B} (m : M A) (k : A → M B) w :
  (∀ a w', (k a w').2 = w') → ((m ≫= k) w).2 = (m w).2.
Proof.
  intros Hk. rewrite bind_run. by destruct (m w) as [[a|e|] w'].
Qed.

(** The pagination loop conducts the exchange the service offers and
    returns the coins of its pages after those it already holds. *)
Lemma get_all_loop_exchange payer s cursor queries pages ending s' :
  exchange answer payer s cursor queries pages ending s' →
  ∀ fuel coin_list log,
    (length queries ≤ S fuel)%nat →
    (execute_query answer (GetCoins payer cursor)
       ≫= get_all_loop answer fuel payer coin_list)
      {| remote_state := s; issued := log |}
    = (Returned (coin_list ++ coins_of pages),
       {| remote_state := s'; issued := log ++ queries |}).
Proof.
  induction 1 as [s cursor page s' Hans Hlast
                 |s cursor msg s' Hans
                 |s cursor page s1 queries pages ending s' Hans Hnext Hex IH];
    intros fuel coin_list log Hfuel;
    rewrite (bind_execute_query (GetCoins payer cursor)); simpl;
    rewrite Hans; simpl.
  - destruct fuel; simpl; rewrite Hlast; unfold coins_of; simpl;
      by rewrite app_nil_r.
  - destruct fuel; simpl; unfold coins_of; simpl; by rewrite app_nil_r.
  - assert (queries ≠ []) as Hne by (by destruct Hex).
    destruct fuel as [|fuel]; simpl in Hfuel.
    { destruct queries; [done | simpl in Hfuel; lia]. }
    simpl. rewrite Hnext.
    rewrite IH by lia.
    unfold coins_of. simpl. by rewrite <- !app_assoc.
Qed.

(** The log only grows, and fetching coins adds no dry run to it. *)
Lemma get_all_loop_log fuel payer coin_list result w :
  ∃ more,
    issued (get_all_loop answer fuel payer coin_list result w).2
      = issued w ++ more ∧
    dry_runs more = 0%nat.
Proof.
  revert coin_list result w.
  induction fuel as [|fuel IH]; intros coin_list [page|msg] w; simpl;
    try (exists []; by rewrite app_nil_r).
  - destruct (hasNextPage _); exists []; by rewrite app_nil_r.
  - destruct (hasNextPage _); [|exists []; by rewrite app_nil_r].
    rewrite (bind_execute_query (GetCoins _ _)).
    edestruct IH as (more & -> & Hmore). simpl.
    eexists (_ :: more). rewrite <- app_assoc. split; [done|].
    change (_ :: more) with ([GetCoins payer (Some (next_cursor page))] ++ more).
    by rewrite dry_runs_app, Hmore.
Qed.

Lemma _get_all_gas_objects_log fuel signing w :
  ∃ more,
    issued (_get_all_gas_objects answer fuel signing w).2
      = issued w ++ GetCoins (payer_address signing) None :: more ∧
    dry_runs more = 0%nat.
Proof.
  unfold _get_all_gas_objects. rewrite (bind_execute_query (GetCoins _ _)).
  edestruct get_all_loop_log as (more & -> & Hmore). simpl.
  exists more. by rewrite <- app_assoc.
Qed.

Lemma available_coins_log fuel signing use_coins w :
  ∃ more,
    issued (available_coins answer fuel signing use_coins w).2
      = issued w ++ more ∧
    dry_runs more = 0%nat.
Proof.
  assert (∃ more,
    issued (_get_all_gas_objects answer fuel signing w).2 = issued w ++ more ∧
    dry_runs more = 0%nat) as Hall.
  { destruct (_get_all_gas_objects_log fuel signing w) as (more & -> & Hmore).
    by exists (GetCoins (payer_address signing) None :: more). }
  unfold available_coins.
  destruct use_coins as [[|x l]|]; try done.
  destruct (forallb is_str (x :: l)).
  - unfold _get_gas_objects.
    rewrite (bind_execute_query (GetMultipleGasObjects _)).
    destruct (answer _ _).1; simpl; by eexists [_].
  - destruct (negb _); exists []; by rewrite app_nil_r.
Qed.

(** The estimator issues one query, whatever comes of it. *)
Lemma _dry_run_for_budget_log signing tx_bytes active_gas_price w :
  issued (_dry_run_for_budget answer signing tx_bytes active_gas_price w).2
  = issued w ++
      [DryRunTransactionKind tx_bytes
         {| sender := sender_str signing;
            gasPrice := active_gas_price;
            gasSponsor := sponsor_str signing |} false].
Proof.
  unfold _dry_run_for_budget.
  rewrite (bind_execute_query (DryRunTransactionKind _ _ _)).
  destruct (answer _ _).1 as [page|msg]; simpl; [|done].
  by case_bool_decide.
Qed.

(** The pagination loop never raises. *)
Lemma get_all_loop_not_raised fuel payer coin_list result w e :
  (get_all_loop answer fuel payer coin_list result w).1 ≠ Raised e.
Proof.
  revert coin_list result w.
  induction fuel as [|fuel IH]; intros coin_list [page|msg] w; simpl;
    try done.
  - by destruct (hasNextPage _).
  - destruct (hasNextPage _); [|done].
    rewrite (bind_execute_query (GetCoins _ _)). apply IH.
Qed.

(** The queries of a resolution: those that fetch the candidate coins, none
    of them a dry run, then at most the one dry run of the estimator, issued
    exactly when the coins were obtained and the budget is absent or zero. *)
Lemma get_gas_data_log fuel signing budget use_coins objects_in_use
    active_gas_price tx_kind w :
  ∃ fetches estimate,
    issued (get_gas_data answer fuel signing budget use_coins objects_in_use
              active_gas_price tx_kind w).2
      = issued w ++ fetches ++ estimate ∧
    issued (available_coins answer fuel signing use_coins w).2
      = issued w ++ fetches ∧
    dry_runs fetches = 0%nat ∧
    estimate =
      match (available_coins answer fuel signing use_coins w).1, budget with
      | Returned _, None => [estimate_query signing active_gas_price tx_kind]
      | Returned _, Some b =>
          if b =? 0 then [estimate_query signing active_gas_price tx_kind]
          else []
      | _, _ => []
      end.
Proof.
  destruct (available_coins_log fuel signing use_coins w)
    as (fetches & Hfetch & Hnone).
  exists fetches. eexists. split; [|by repeat split].
  unfold get_gas_data. rewrite bind_run.
  destruct (available_coins answer fuel signing use_coins w)
    as [[coins|e|] w1]; simpl in *; try by rewrite app_nil_r.
  rewrite bind_unchanged_after.
  2:{ intros b w'. simpl. destruct (filter _ coins); [done|].
      by destruct (_coins_for_budget _ _). }
  rewrite app_assoc, <- Hfetch.
  destruct budget as [b|]; [destruct (b =? 0)|];
    try apply _dry_run_for_budget_log.
  simpl. by rewrite app_nil_r.
Qed.

(** Which errors each step can raise. *)
Lemma _get_all_gas_objects_not_raised fuel signing w e :
  (_get_all_gas_objects answer fuel signing w).1 ≠ Raised e.
Proof.
  unfold _get_all_gas_objects. rewrite (bind_execute_query (GetCoins _ _)).
  apply get_all_loop_not_raised.
Qed.




(** C4, as the code has it: the estimator issues exactly one query, a dry
    run carrying the transaction body it was given, the signer's sender
    address, the gas price and the optional sponsor address, with the
    skip-checks flag false, so that checks are not skipped; and the only dry
    run a resolution issues is this one, on the base64 text of the serialized
    transaction kind. *)
Theorem dry_run_request_keeps_checks signing tx_bytes active_gas_price
    fuel budget use_coins objects_in_use tx_kind w :
  (∃ q,
     issued (_dry_run_for_budget answer signing tx_bytes active_gas_price w).2
       = issued w ++ [q] ∧
     q = DryRunTransactionKind tx_bytes
           {| sender := sender_str signing;
              gasPrice := active_gas_price;
              gasSponsor := sponsor_str signing |} false ∧
     skip_checks_of q = Some false) ∧
  (∃ queries,
     issued (get_gas_data answer fuel signing budget use_coins objects_in_use
               active_gas_price tx_kind w).2
       = issued w ++ queries ∧
     ∀ q, q ∈ queries → is_dry_run q = true →
          q = DryRunTransactionKind (b64encode (serialize tx_kind))
                {| sender := sender_str signing;
                   gasPrice := active_gas_price;
                   gasSponsor := sponsor_str signing |} false).
Proof.
  split.
  - eexists. split; [apply _dry_run_for_budget_log | done].
  - destruct (get_gas_data_log fuel signing budget use_coins objects_in_use
                active_gas_price tx_kind w)
      as (fetches & estimate & -> & _ & Hnone & Hestimate).
    exists (fetches ++ estimate). split; [done|].
    intros q [Hq|Hq]%elem_of_app Hdry.
    + apply list_elem_of_split in Hq as (l1 & l2 & ->).
      unfold dry_runs in Hnone. rewrite List.filter_app in Hnone.
      simpl in Hnone. rewrite Hdry, length_app in Hnone.
      simpl in Hnone. exfalso. lia.
    + assert (estimate = [] ∨
              estimate = [estimate_query signing active_gas_price tx_kind])
        as [->| ->].
      { rewrite Hestimate. destruct (_ .1); auto.
        destruct budget as [b|]; auto. destruct (b =? 0); auto. }
      * by apply elem_of_nil in Hq.
      * by apply list_elem_of_singleton in Hq as ->.
Qed.

(** C5, as the code has it: a resolution adds at most one dry run to the
    log; none when the explicit budget is not zero; and when the budget is
    absent (or zero, which the code takes for absent), exactly one if the
    candidate coins were obtained and none if obtaining them raised. *)
Theorem dry_runs_of_resolution fuel signing budget use_coins objects_in_use
    active_gas_price tx_kind w :
  ∃ n : nat,
    dry_runs (issued (get_gas_data answer fuel signing budget use_coins
                        objects_in_use active_gas_price tx_kind w).2)
      = (dry_runs (issued w) + n)%nat ∧
    (n ≤ 1)%nat ∧
    ((∃ b, budget = Some b ∧ b ≠ 0) → n = 0%nat) ∧
    (budget = None ∨ budget = Some 0 →
     (∀ coins w1,
        available_coins answer fuel signing use_coins w
          = (Returned coins, w1) → n = 1%nat) ∧
     (∀ e w1,
        available_coins answer fuel signing use_coins w
          = (Raised e, w1) → n = 0%nat)).
Proof.
  destruct (get_gas_data_log fuel signing budget use_coins objects_in_use
              active_gas_price tx_kind w)
    as (fetches & estimate & -> & _ & Hnone & Hestimate).
  exists (dry_runs estimate).
  rewrite !dry_runs_app, Hnone. split; [lia|].
  rewrite Hestimate. unfold dry_runs, estimate_query.
  split; [|split; [|intros Hzero; split]].
  - destruct (_ .1); simpl; try lia.
    destruct budget as [b|]; simpl; try lia.
    destruct (b =? 0); simpl; lia.
  - intros (b & -> & Hb). destruct (_ .1); try done.
    by rewrite (proj2 (Z.eqb_neq b 0) Hb).
  - intros coins w1 ->. by destruct Hzero as [->| ->].
  - by intros e w1 ->.
Qed.

(** C6: when a resolution returns, every reference in the payment list of
    its [GasData] is that of a candidate coin whose identifier is not in
    [objects_in_use]; no reserved identifier appears in the list. *)
Theorem reserved_coins_never_pay fuel signing budget use_coins objects_in_use
    active_gas_price tx_kind w gas w' :
  get_gas_data answer fuel signing budget use_coins objects_in_use
    active_gas_price tx_kind w = (Returned gas, w') →
  ∀ r, r ∈ Payment gas →
       (ObjectID r ∉ objects_in_use) ∧
       (∃ x, r = from_gql_ref x ∧ coin_object_id x ∉ objects_in_use).
Proof.
  unfold get_gas_data. rewrite bind_run.
  destruct (available_coins answer fuel signing use_coins w)
    as [[coins|e|] w1]; try done.
  match goal with |- context [mbind _ ?m] => generalize m end.
  intros resolved. rewrite bind_run.
  destruct (resolved w1) as [[b|e|] w2]; try done.
  simpl.
  destruct (filter _ coins) as [|x0 l] eqn:Hfilter; [done|].
  unfold _coins_for_budget.
  destruct (select_coins (x0 :: l) b) as [e|selection] eqn:Hsel; [done|].
  unfold mret, M_ret. intros ?; simplify_eq. simpl.
  intros r (x & -> & Hx)%list_elem_of_fmap.
  apply (select_coins_subseteq _ _ _ Hsel) in Hx.
  rewrite <- Hfilter in Hx. apply list_elem_of_filter in Hx as [Hfree _].
  split; [done|]. by exists x.
Qed.


(** C8: if the first query of the fetch-all operation fails, the operation
    returns the empty list (it does not raise), having issued that one
    query; and when the service answers a whole exchange successfully, the
    operation asks at each page's cursor until a page reports no further
    page and returns the coins of all the pages, in order. *)
Theorem fetch_all_first_failure_or_all_pages fuel signing w :
  (∀ result_string s',
     answer (GetCoins (payer_address signing) None) (remote_state w)
       = (RpcFailed result_string, s') →
     _get_all_gas_objects answer fuel signing w
       = (Returned [],
          {| remote_state := s';
             issued := issued w ++ [GetCoins (payer_address signing) None] |})) ∧
  (∀ queries pages s',
     exchange answer (payer_address signing) (remote_state w) None
       queries pages NoFurtherPages s' →
     (length queries ≤ S fuel)%nat →
     _get_all_gas_objects answer fuel signing w
       = (Returned (coins_of pages),
          {| remote_state := s'; issued := issued w ++ queries |})).
Proof.
  unfold _get_all_gas_objects. destruct w as [s log]. simpl. split.
  - intros msg s' Hans.
    apply (get_all_loop_exchange _ _ _ _ [] QueryFailed).
    + by eapply exchange_failed.
    + simpl. lia.
  - intros queries pages s' Hex Hfuel.
    by apply (get_all_loop_exchange _ _ _ _ _ _ _ Hex).
Qed.

(** C9: if the first page is served and a later continuation query fails,
    the fetch-all operation returns (it does not raise) exactly the coins of
    the pages served before the failure. *)
Theorem fetch_all_continuation_failure fuel signing w queries pages s' :
  exchange answer (payer_address signing) (remote_state w) None
    queries pages QueryFailed s' →
  pages ≠ [] →
  (length queries ≤ S fuel)%nat →
  _get_all_gas_objects answer fuel signing w
    = (Returned (coins_of pages),
       {| remote_state := s'; issued := issued w ++ queries |}).
Proof.
  intros Hex _ Hfuel.
  unfold _get_all_gas_objects. destruct w as [s log]. simpl.
  by apply (get_all_loop_exchange _ _ _ _ _ _ _ Hex).
Qed.

(** What is left of [get_gas_data] once the candidate coins and the budget
    are known. *)
Lemma get_gas_data_after_coins fuel signing budget use_coins objects_in_use
    active_gas_price tx_kind w coins w1 :
  available_coins answer fuel signing use_coins w = (Returned coins, w1) →
  get_gas_data answer fuel signing budget use_coins objects_in_use
    active_gas_price tx_kind w
  = match
      match budget with
      | Some b =>
          if b =? 0
          then _dry_run_for_budget answer signing
                 (b64encode (serialize tx_kind)) active_gas_price w1
          else (Returned b, w1)
      | None => _dry_run_for_budget answer signing
                  (b64encode (serialize tx_kind)) active_gas_price w1
      end
    with
    | (Returned b, w2) =>
        (match filter (λ x, coin_object_id x ∉ objects_in_use) coins with
         | [] => Raised NoCoinObjectsFound
         | c :: cs =>
             match _coins_for_budget (c :: cs) b with
             | inl e => Raised e
             | inr payment =>
                 Returned {| Payment := payment;
                             Owner := payer_address signing;
                             Price := active_gas_price;
                             Budget := b |}
             end
         end, w2)
    | (Raised e, w2) => (Raised e, w2)
    | (OutOfFuel, w2) => (OutOfFuel, w2)
    end.
Proof.
  intros Hav. unfold get_gas_data. rewrite bind_run, Hav, bind_run.
  assert (∀ b w2,
    (let use_coins := filter (λ x, coin_object_id x ∉ objects_in_use) coins in
     match use_coins with
     | [] => raise NoCoinObjectsFound
     | _ :: _ =>
         match _coins_for_budget use_coins b with
         | inl e => raise e
         | inr payment =>
             mret {| Payment := payment; Owner := payer_address signing;
                     Price := active_gas_price; Budget := b |}
         end
     end) w2
    = (match filter (λ x, coin_object_id x ∉ objects_in_use) coins with
       | [] => Raised NoCoinObjectsFound
       | c :: cs =>
           match _coins_for_budget (c :: cs) b with
           | inl e => Raised e
           | inr payment =>
               Returned {| Payment := payment;
                           Owner := payer_address signing;
                           Price := active_gas_price;
                           Budget := b |}
           end
       end, w2)) as Htail.
  { intros b w2. simpl. destruct (filter _ coins); [done|].
    by destruct (_coins_for_budget _ _). }
  destruct budget as [b|]; [destruct (b =? 0)|].
  - destruct (_dry_run_for_budget _ _ _ _ _) as [[b'|e|] w2]; [apply Htail|done..].
  - apply Htail.
  - destruct (_dry_run_for_budget _ _ _ _ _) as [[b'|e|] w2]; [apply Htail|done..].
Qed.

(** C10: an explicit coin list that is empty is handled as no coin list at
    all.  Nothing is raised for the list and the candidate set is not the
    empty list: the candidate step is the fetch-all operation for the payer,
    so that when the service serves the payer's pages the candidates are the
    coins of all these pages, and the resolution goes on to filter them and
    select among them, as the resolution without a coin list does. *)
Theorem empty_coin_list_fetches_all fuel signing budget objects_in_use
    active_gas_price tx_kind w :
  available_coins answer fuel signing (Some []) w
    = _get_all_gas_objects answer fuel signing w ∧
  (∃ more,
     issued (available_coins answer fuel signing (Some []) w).2
       = issued w ++ GetCoins (payer_address signing) None :: more) ∧
  (∀ e, (available_coins answer fuel signing (Some []) w).1 ≠ Raised e) ∧
  get_gas_data answer fuel signing budget (Some []) objects_in_use
      active_gas_price tx_kind w
    = get_gas_data answer fuel signing budget None objects_in_use
        active_gas_price tx_kind w ∧
  (∀ queries pages s',
     exchange answer (payer_address signing) (remote_state w) None
       queries pages NoFurtherPages s' →
     (length queries ≤ S fuel)%nat →
     let w1 := {| remote_state := s'; issued := issued w ++ queries |} in
     available_coins answer fuel signing (Some []) w
       = (Returned (coins_of pages), w1) ∧
     get_gas_data answer fuel signing budget (Some []) objects_in_use
       active_gas_price tx_kind w
     = match
         match budget with
         | Some b =>
             if b =? 0
             then _dry_run_for_budget answer signing
                    (b64encode (serialize tx_kind)) active_gas_price w1
             else (Returned b, w1)
         | None => _dry_run_for_budget answer signing
                     (b64encode (serialize tx_kind)) active_gas_price w1
         end
       with
       | (Returned b, w2) =>
           (match filter (λ x, coin_object_id x ∉ objects_in_use)
                    (coins_of pages) with
            | [] => Raised NoCoinObjectsFound
            | c :: cs =>
                match _coins_for_budget (c :: cs) b with
                | inl e => Raised e
                | inr payment =>
                    Returned {| Payment := payment;
                                Owner := payer_address signing;
                                Price := active_gas_price;
                                Budget := b |}
                end
            end, w2)
       | (Raised e, w2) => (Raised e, w2)
       | (OutOfFuel, w2) => (OutOfFuel, w2)
       end).
Proof.
  split; [done|]. split; [|split; [|split; [done|]]].
  - destruct (_get_all_gas_objects_log fuel signing w) as (more & Hlog & _).
    by exists more.
  - intros e. apply _get_all_gas_objects_not_raised.
  - intros queries pages s' Hex Hfuel w1.
    assert (available_coins answer fuel signing (Some []) w
            = (Returned (coins_of pages), w1)) as Hav.
    { unfold available_coins, _get_all_gas_objects. subst w1.
      destruct w as [s log]. simpl in *.
      by apply (get_all_loop_exchange _ _ _ _ _ _ _ Hex). }
    split; [done|].
    by apply get_gas_data_after_coins.
Qed.

End Resolution.

(** ** The properties at sample inputs *)

(** Scenario A: coins of 50, 30 and 40 for a budget of 60. *)
Lemma select_covers_budget_minimally_witness :
  [c1; c2; c3] ≠ [] ∧ 0 < 60 ∧ 60 ≤ sum_balances [c1; c2; c3] ∧
  ∃ selection init last,
    _coins_for_budget [c1; c2; c3] 60 = inr (from_gql_ref <$> selection) ∧
    selection `sublist_of` [c1; c2; c3] ∧
    60 ≤ sum_balances selection ∧
    selection = init ++ [last] ∧
    sum_balances init < 60 ∧
    (coin_fit [c1; c2; c3] 60 = [] → selection `prefix_of` [c1; c2; c3]).
Proof.
  assert ([c1; c2; c3] ≠ []) as Hne by discriminate.
  assert (0 < 60) as Hpos by reflexivity.
  assert (60 ≤ sum_balances [c1; c2; c3]) as Hsum by (vm_compute; discriminate).
  repeat (split; [assumption|]).
  exact (select_covers_budget_minimally [c1; c2; c3] 60 Hne Hpos Hsum).
Defined.

(** A coin of 100 among smaller ones, and a lone coin of exactly 60, for a
    budget of 60. *)
Lemma select_first_coin_over_budget_witness :
  0 < 60 ∧
  (∃ before first after,
     [c1; big; c2] = before ++ first :: after ∧
     Forall (λ y, int (balance y) ≤ 60) before ∧
     60 < int (balance first) ∧
     _coins_for_budget [c1; big; c2] 60 = inr [from_gql_ref first]) ∧
  (coin_fit [coin "0xe" 60] 60 = [] ∧
   accumulate [coin "0xe" 60] 60 0 [] = (60, [coin "0xe" 60]) ∧
   _coins_for_budget [coin "0xe" 60] 60 = inr [from_gql_ref (coin "0xe" 60)]).
Proof.
  assert (0 < 60) as Hpos by reflexivity.
  split; [assumption|].
  destruct (select_first_coin_over_budget 60 Hpos) as [Hover Hexact].
  split.
  - apply (Hover [c1; big; c2] big); [|reflexivity].
    apply list_elem_of_further, list_elem_of_here.
  - apply (Hexact (coin "0xe" 60)). reflexivity.
Defined.

(** Coins of 50 and 30 for a budget of 100. *)
Lemma select_fails_when_total_short_witness :
  0 < 100 ∧ sum_balances [c1; c2] < 100 ∧
  _coins_for_budget [c1; c2] 100 = inl (TotalGasAvailable 80 100) ∧
  error_kind (TotalGasAvailable 80 100) = InsufficientFundsError.
Proof.
  assert (0 < 100) as Hpos by reflexivity.
  assert (sum_balances [c1; c2] < 100) as Hshort by reflexivity.
  repeat (split; [assumption|]).
  exact (select_fails_when_total_short [c1; c2] 100 Hpos Hshort).
Defined.

(** C4, as the specification states it, fails: the request of an estimate
    carries the skip-checks flag false. *)
Lemma dry_run_request_does_not_skip_checks :
  issued (_dry_run_for_budget ledger_answer alice "TWFu" 1000 fresh).2
    = [DryRunTransactionKind "TWFu"
         {| sender := "0xa11ce"; gasPrice := 1000; gasSponsor := None |}
         false] ∧
  ¬ Forall (λ q, skip_checks_of q = Some true)
      (issued (_dry_run_for_budget ledger_answer alice "TWFu" 1000 fresh).2).
Proof.
  split; [reflexivity|].
  intros Hall. apply Forall_cons in Hall as [Hskip _]. discriminate Hskip.
Qed.

(** C5, as the specification states it, fails both ways: without a budget,
    when the by-id coin query fails or the coin list is mixed, the resolution
    raises before any dry run is issued; with the explicit budget 0 a dry run
    is issued. *)
Lemma dry_run_count_not_as_stated :
  get_gas_data down_answer 5 alice None (Some [inl "0xc1"]) ∅
    1000 some_tx fresh
    = (Raised (ErrorRetrievingCoins "unreachable"),
       {| remote_state := 1%nat;
          issued := [GetMultipleGasObjects ["0xc1"]] |}) ∧
  dry_runs (issued (get_gas_data down_answer 5 alice None
                      (Some [inl "0xc1"]) ∅ 1000 some_tx fresh).2)
    = 0%nat ∧
  get_gas_data ledger_answer 5 alice None (Some [inr c1; inl "0xc2"]) ∅
    1000 some_tx fresh
    = (Raised MustUseSameType, fresh) ∧
  dry_runs (issued (get_gas_data ledger_answer 5 alice None
                      (Some [inr c1; inl "0xc2"]) ∅ 1000 some_tx fresh).2)
    = 0%nat ∧
  dry_runs (issued (get_gas_data ledger_answer 5 alice (Some 0)
                      (Some [inr c1]) ∅ 1000 some_tx fresh).2)
    = 1%nat.
Proof. by vm_compute. Qed.

(** The big coin is reserved: for a budget of 40 the shortcut would have
    picked it, and the next coin pays instead. *)
Lemma reserved_coins_never_pay_witness :
  get_gas_data ledger_answer 5 alice (Some 40) (Some [inr big; inr c1])
    {["0xb1"]} 1000 some_tx fresh
    = (Returned {| Payment := [from_gql_ref c1]; Owner := "0xa11ce";
                   Price := 1000; Budget := 40 |}, fresh) ∧
  ∀ r, r ∈ [from_gql_ref c1] →
       (ObjectID r ∉ ({["0xb1"]} : gset string)) ∧
       (∃ x, r = from_gql_ref x ∧
             coin_object_id x ∉ ({["0xb1"]} : gset string)).
Proof.
  assert (get_gas_data ledger_answer 5 alice (Some 40)
            (Some [inr big; inr c1]) {["0xb1"]} 1000 some_tx fresh
          = (Returned {| Payment := [from_gql_ref c1]; Owner := "0xa11ce";
                         Price := 1000; Budget := 40 |}, fresh)) as Hrun
    by (vm_compute; reflexivity).
  split; [assumption|].
  exact (reserved_coins_never_pay ledger_answer 5 alice (Some 40)
           (Some [inr big; inr c1]) {["0xb1"]} 1000 some_tx fresh _ _ Hrun).
Defined.


(** The first page arrives, the continuation query fails: the coins of the
    first page are returned. *)
Lemma fetch_all_continuation_failure_witness :
  exchange flaky_answer "0xa11ce" 0%nat None
    [GetCoins "0xa11ce" None;
     GetCoins "0xa11ce" (Some {| hasNextPage := true; endCursor := Some "p2" |})]
    [page_before [c1; c2] "p2"] QueryFailed 2%nat ∧
  [page_before [c1; c2] "p2"] ≠ [] ∧
  (2 ≤ S 1)%nat ∧
  _get_all_gas_objects flaky_answer 1 alice fresh
    = (Returned [c1; c2],
       {| remote_state := 2%nat;
          issued :=
            [GetCoins "0xa11ce" None;
             GetCoins "0xa11ce"
               (Some {| hasNextPage := true; endCursor := Some "p2" |})] |}).
Proof.
  assert (exchange flaky_answer "0xa11ce" 0%nat None
            [GetCoins "0xa11ce" None;
             GetCoins "0xa11ce"
               (Some {| hasNextPage := true; endCursor := Some "p2" |})]
            [page_before [c1; c2] "p2"] QueryFailed 2%nat) as Hex.
  { eapply (exchange_next flaky_answer "0xa11ce" 0%nat None
              (page_before [c1; c2] "p2") 1%nat);
      [reflexivity | reflexivity |].
    eapply exchange_failed. reflexivity. }
  assert ([page_before [c1; c2] "p2"] ≠ []) as Hne by discriminate.
  assert (2 ≤ S 1)%nat as Hfuel by (apply le_n).
  repeat (split; [assumption|]).
  exact (fetch_all_continuation_failure flaky_answer 1 alice fresh
           _ _ _ Hex Hne Hfuel).
Defined.

(** A service that is down yields no coins; the sample ledger yields the
    coins of its two pages. *)
Lemma fetch_all_first_failure_or_all_pages_witness :
  down_answer (GetCoins "0xa11ce" None) 0%nat
    = (RpcFailed "unreachable", 1%nat) ∧
  _get_all_gas_objects down_answer 0 alice fresh
    = (Returned [],
       {| remote_state := 1%nat; issued := [GetCoins "0xa11ce" None] |}) ∧
  exchange ledger_answer "0xa11ce" 0%nat None
    [GetCoins "0xa11ce" None;
     GetCoins "0xa11ce" (Some {| hasNextPage := true; endCursor := Some "p2" |})]
    [page_before [c1; c2] "p2"; last_page [c3]] NoFurtherPages 2%nat ∧
  (2 ≤ S 1)%nat ∧
  _get_all_gas_objects ledger_answer 1 alice fresh
    = (Returned [c1; c2; c3],
       {| remote_state := 2%nat;
          issued :=
            [GetCoins "0xa11ce" None;
             GetCoins "0xa11ce"
               (Some {| hasNextPage := true; endCursor := Some "p2" |})] |}).
Proof.
  assert (down_answer (GetCoins "0xa11ce" None) 0%nat
          = (RpcFailed "unreachable", 1%nat)) as Hdown by reflexivity.
  assert (exchange ledger_answer "0xa11ce" 0%nat None
            [GetCoins "0xa11ce" None;
             GetCoins "0xa11ce"
               (Some {| hasNextPage := true; endCursor := Some "p2" |})]
            [page_before [c1; c2] "p2"; last_page [c3]] NoFurtherPages 2%nat)
    as Hex.
  { eapply (exchange_next ledger_answer "0xa11ce" 0%nat None
              (page_before [c1; c2] "p2") 1%nat);
      [reflexivity | reflexivity |].
    eapply (exchange_last ledger_answer "0xa11ce" 1%nat _ (last_page [c3]));
      reflexivity. }
  assert (2 ≤ S 1)%nat as Hfuel by (apply le_n).
  split; [assumption|]. split.
  - exact (proj1 (fetch_all_first_failure_or_all_pages down_answer 0 alice
                    fresh) _ _ Hdown).
  - repeat (split; [assumption|]).
    exact (proj2 (fetch_all_first_failure_or_all_pages ledger_answer 1 alice
                    fresh) _ _ _ Hex Hfuel).
Defined.


(** An empty coin list against the sample ledger: the coins of both pages
    are the candidates, and a budget of 100 needs all three of them. *)
Lemma empty_coin_list_fetches_all_witness :
  exchange ledger_answer "0xa11ce" 0%nat None
    [GetCoins "0xa11ce" None;
     GetCoins "0xa11ce" (Some {| hasNextPage := true; endCursor := Some "p2" |})]
    [page_before [c1; c2] "p2"; last_page [c3]] NoFurtherPages 2%nat ∧
  (2 ≤ S 1)%nat ∧
  available_coins ledger_answer 1 alice (Some []) fresh
    = (Returned [c1; c2; c3],
       {| remote_state := 2%nat;
          issued :=
            [GetCoins "0xa11ce" None;
             GetCoins "0xa11ce"
               (Some {| hasNextPage := true; endCursor := Some "p2" |})] |}) ∧
  get_gas_data ledger_answer 1 alice (Some 100) (Some []) ∅ 1000 some_tx fresh
    = (Returned {| Payment := [from_gql_ref c1; from_gql_ref c2;
                               from_gql_ref c3];
                   Owner := "0xa11ce"; Price := 1000; Budget := 100 |},
       {| remote_state := 2%nat;
          issued :=
            [GetCoins "0xa11ce" None;
             GetCoins "0xa11ce"
               (Some {| hasNextPage := true; endCursor := Some "p2" |})] |}).
Proof.
  assert (exchange ledger_answer "0xa11ce" 0%nat None
            [GetCoins "0xa11ce" None;
             GetCoins "0xa11ce"
               (Some {| hasNextPage := true; endCursor := Some "p2" |})]
            [page_before [c1; c2] "p2"; last_page [c3]] NoFurtherPages 2%nat)
    as Hex.
  { eapply (exchange_next ledger_answer "0xa11ce" 0%nat None
              (page_before [c1; c2] "p2") 1%nat);
      [reflexivity | reflexivity |].
    eapply (exchange_last ledger_answer "0xa11ce" 1%nat _ (last_page [c3]));
      reflexivity. }
  assert (2 ≤ S 1)%nat as Hfuel by (apply le_n).
  split; [assumption|]. split; [assumption|].
  destruct (proj2 (proj2 (proj2 (proj2
              (empty_coin_list_fetches_all ledger_answer 1 alice (Some 100) ∅
                 1000 some_tx fresh)))) _ _ _ Hex Hfuel) as [Hav Hrun].
  split; [exact Hav|].
  rewrite Hrun. vm_compute. reflexivity.
Defined.

(** * Further properties of the gas module *)

(** ** The selector on any budget *)

Section SelectorBeyond.

Implicit Types (coins : list SuiCoinObjectGQL) (budget : Z).

(** A returned selection covers the budget and keeps the input order. *)
Lemma select_coins_covers coins budget selection :
  select_coins coins budget = inr selection →
  selection `sublist_of` coins ∧ budget ≤ sum_balances selection.
Proof.
  unfold select_coins.
  destruct (coin_fit coins budget) as [|first others] eqn:Hfit.
  - destruct (accumulate_spec coins budget 0 [])
      as (taken & rest & -> & -> & _ & _).
    simpl. case_bool_decide as Hlt; [done|].
    intros ?; simplify_eq. split; [by apply sublist_inserts_r | lia].
  - apply coin_fit_first in Hfit as (before & after & -> & _ & Hfirst).
    intros ?; simplify_eq. simpl. split; [|lia].
    apply sublist_inserts_l, sublist_skip, sublist_nil_l.
Qed.

Lemma _coins_for_budget_returned coins budget payment :
  _coins_for_budget coins budget = inr payment →
  ∃ selection,
    select_coins coins budget = inr selection ∧
    payment = from_gql_ref <$> selection.
Proof.
  unfold _coins_for_budget.
  destruct (select_coins coins budget) as [e|selection]; [done|].
  intros ?; simplify_eq. by exists selection.
Qed.

Lemma total_short_raises coins budget :
  sum_balances coins < budget →
  _coins_for_budget coins budget
    = inl (TotalGasAvailable (sum_balances coins) budget).
Proof.
  intros Hshort. unfold _coins_for_budget, select_coins.
  destruct (coin_fit coins budget) as [|first others] eqn:Hfit.
  - destruct (accumulate_spec coins budget 0 [])
      as (taken & rest & -> & -> & Hstop & _).
    simpl in *. rewrite sum_balances_app in *.
    pose proof (sum_balances_nonneg rest).
    destruct Hstop as [->|?]; [|lia].
    simpl. rewrite Z.add_0_r in *.
    by rewrite bool_decide_eq_true_2 by lia.
  - apply coin_fit_first in Hfit as (before & after & -> & _ & Hfirst).
    assert (first ∈ before ++ first :: after) as Hin by set_solver.
    apply balance_le_sum in Hin. lia.
Qed.

(** X1: The selector raises exactly when the coins' total is short of the
    budget, and then reports that total; it never raises for a budget the
    coins cover, nor for a budget that is zero or negative. *)
Theorem select_raises_iff_total_short coins budget :
  ((∃ e, _coins_for_budget coins budget = inl e) ↔
   sum_balances coins < budget) ∧
  (∀ e, _coins_for_budget coins budget = inl e →
        e = TotalGasAvailable (sum_balances coins) budget).
Proof.
  assert (∀ e, _coins_for_budget coins budget = inl e →
               e = TotalGasAvailable (sum_balances coins) budget ∧
               sum_balances coins < budget) as Hraise.
  { intros e. unfold _coins_for_budget, select_coins.
    destruct (coin_fit coins budget) as [|first others]; [|done].
    destruct (accumulate_spec coins budget 0 [])
      as (taken & rest & -> & -> & Hstop & _).
    simpl in *. case_bool_decide as Hlt; [|done].
    destruct Hstop as [->|?]; [|lia].
    rewrite app_nil_r. intros ?; by simplify_eq. }
  split; [split|].
  - intros [e He]. by apply Hraise in He as [_ ?].
  - intros Hshort. eexists. by apply total_short_raises.
  - intros e He. by apply Hraise in He as [? _].
Qed.

(** X2: The selector returns an empty payment list exactly when the budget is
    zero or negative and no coin's balance exceeds it; for a positive budget
    a returned list is never empty. *)
Theorem select_nothing_iff coins budget :
  _coins_for_budget coins budget = inr [] ↔
  budget ≤ 0 ∧ coin_fit coins budget = [].
Proof.
  split.
  - intros Hret.
    apply _coins_for_budget_returned in Hret as (selection & Hsel & Hnil).
    symmetry in Hnil. apply fmap_nil_inv in Hnil as ->.
    pose proof (select_coins_covers _ _ _ Hsel) as [_ Hcover].
    split; [done|].
    unfold select_coins in Hsel.
    by destruct (coin_fit coins budget).
  - intros [Hle Hfit]. unfold _coins_for_budget, select_coins.
    rewrite Hfit.
    assert (accumulate coins budget 0 [] = (0, [])) as ->.
    { destruct coins; simpl; [done|].
      by rewrite bool_decide_eq_true_2 by lia. }
    by rewrite bool_decide_eq_false_2 by lia.
Qed.

(** X3: When no coin alone exceeds a positive budget, the returned selection is
    a prefix of the coins that totals at least the budget and less than
    twice the budget. *)
Theorem accumulated_selection_below_twice_budget coins budget payment :
  0 < budget →
  coin_fit coins budget = [] →
  _coins_for_budget coins budget = inr payment →
  ∃ selection,
    payment = from_gql_ref <$> selection ∧
    selection `prefix_of` coins ∧
    budget ≤ sum_balances selection < 2 * budget.
Proof.
  intros Hpos Hfit Hret.
  apply _coins_for_budget_returned in Hret as (selection & Hsel & ->).
  exists selection. split; [done|].
  revert Hsel. unfold select_coins. rewrite Hfit.
  destruct (accumulate_spec coins budget 0 [])
    as (taken & rest & Hcoins & -> & _ & Hmin).
  simpl. case_bool_decide as Hlt; [done|].
  intros ?; simplify_eq.
  split; [by exists rest|]. split; [lia|].
  destruct (decide (selection = [])) as [->|Hne]; [simpl in *; lia|].
  destruct (exists_last Hne) as (init & last & ->).
  specialize (Hmin init last eq_refl).
  assert (int (balance last) ≤ budget).
  { apply (coin_fit_nil_le ((init ++ [last]) ++ rest)); [done|].
    set_solver. }
  rewrite sum_balances_app. simpl. lia.
Qed.

(** Once the loop has met the threshold, the coins that follow are not
    looked at. *)
Lemma accumulate_app_met coins extra budget _accum _accum_coin :
  budget ≤ (accumulate coins budget _accum _accum_coin).1 →
  accumulate (coins ++ extra) budget _accum _accum_coin
    = accumulate coins budget _accum _accum_coin.
Proof.
  revert _accum _accum_coin.
  induction coins as [|x coins IH]; intros a l; simpl.
  - intros Hmet. destruct extra; simpl; [done|].
    by rewrite bool_decide_eq_true_2 by lia.
  - case_bool_decide; [done|]. apply IH.
Qed.

(** X4: A returned selection does not depend on the coins that come later in
    the list: appending coins changes nothing when the shortcut had found its
    coin, and on the accumulation path when none of the appended coins alone
    exceeds the budget. *)
Theorem selection_ignores_later_coins coins budget payment :
  _coins_for_budget coins budget = inr payment →
  (coin_fit coins budget ≠ [] →
   ∀ extra, _coins_for_budget (coins ++ extra) budget = inr payment) ∧
  (∀ extra, Forall (λ x, int (balance x) ≤ budget) extra →
            _coins_for_budget (coins ++ extra) budget = inr payment).
Proof.
  intros Hret.
  apply _coins_for_budget_returned in Hret as (selection & Hsel & ->).
  assert (coin_fit coins budget ≠ [] →
          ∀ extra, _coins_for_budget (coins ++ extra) budget
                   = inr (from_gql_ref <$> selection)) as Hshort.
  { intros Hfit extra. revert Hsel.
    unfold _coins_for_budget, select_coins, coin_fit.
    rewrite filter_app. fold (coin_fit coins budget).
    destruct (coin_fit coins budget); [done|]. simpl.
    by intros ?; simplify_eq. }
  split; [done|].
  intros extra Hextra.
  destruct (decide (coin_fit coins budget = [])) as [Hfit|]; [|by apply Hshort].
  revert Hsel. unfold _coins_for_budget, select_coins, coin_fit.
  rewrite filter_app. fold (coin_fit coins budget). rewrite Hfit. simpl.
  replace (filter _ extra) with (@nil SuiCoinObjectGQL).
  2:{ symmetry. induction Hextra as [|x l Hx _ IH]; [done|].
      rewrite filter_cons_False; [done | lia]. }
  destruct (accumulate coins budget 0 []) as [a l] eqn:Hacc.
  case_bool_decide as Hlt; [done|]. intros ?; simplify_eq.
  rewrite accumulate_app_met, Hacc by (rewrite Hacc; simpl; lia).
  by rewrite bool_decide_eq_false_2 by lia.
Qed.

End SelectorBeyond.

(** ** Resolutions, end to end *)

Section ResolutionBeyond.

Context {remote : Type}.
Variable answer : ∀ q : QueryNode, remote → SuiRpcResult (result_type q) * remote.

Implicit Types (w : @World remote).

(** X5: Whenever a resolution returns, the [GasData] names the payer and the gas
    price it was given, keeps an explicit non-zero budget as it is, and pays
    with the references of unreserved candidate coins, in their order, whose
    balances total at least the budget it carries. *)
Theorem returned_gas_data_is_funded fuel signing budget use_coins
    objects_in_use active_gas_price tx_kind w gas w' :
  get_gas_data answer fuel signing budget use_coins objects_in_use
    active_gas_price tx_kind w = (Returned gas, w') →
  Owner gas = payer_address signing ∧
  Price gas = active_gas_price ∧
  (∀ b, budget = Some b → b ≠ 0 → Budget gas = b) ∧
  ∃ coins w1 selection,
    available_coins answer fuel signing use_coins w = (Returned coins, w1) ∧
    selection `sublist_of`
      filter (λ x, coin_object_id x ∉ objects_in_use) coins ∧
    Payment gas = from_gql_ref <$> selection ∧
    Budget gas ≤ sum_balances selection.
Proof.
  destruct (available_coins answer fuel signing use_coins w)
    as [[coins|e|] w1] eqn:Hav.
  2,3: unfold get_gas_data; by rewrite bind_run, Hav.
  rewrite (get_gas_data_after_coins answer _ _ _ _ _ _ _ _ _ _ Hav).
  assert (∀ b w2,
    (match filter (λ x, coin_object_id x ∉ objects_in_use) coins with
     | [] => Raised NoCoinObjectsFound
     | c :: cs =>
         match _coins_for_budget (c :: cs) b with
         | inl e => Raised e
         | inr payment =>
             Returned {| Payment := payment; Owner := payer_address signing;
                         Price := active_gas_price; Budget := b |}
         end
     end, w2) = (Returned gas, w') →
    Owner gas = payer_address signing ∧
    Price gas = active_gas_price ∧
    Budget gas = b ∧
    ∃ selection,
      selection `sublist_of`
        filter (λ x, coin_object_id x ∉ objects_in_use) coins ∧
      Payment gas = from_gql_ref <$> selection ∧
      Budget gas ≤ sum_balances selection) as Htail.
  { intros b w2.
    destruct (filter _ coins) as [|c cs] eqn:Hfilter; [done|].
    destruct (_coins_for_budget (c :: cs) b) as [e|payment] eqn:Hpay; [done|].
    intros ?; simplify_eq. simpl.
    apply _coins_for_budget_returned in Hpay as (selection & Hsel & ->).
    apply select_coins_covers in Hsel as [Hsub Hcover].
    repeat split. by exists selection. }
  assert (∀ m : Outcome Z * World,
    match m with
    | (Returned b, w2) =>
        (match filter (λ x, coin_object_id x ∉ objects_in_use) coins with
         | [] => Raised NoCoinObjectsFound
         | c :: cs =>
             match _coins_for_budget (c :: cs) b with
             | inl e => Raised e
             | inr payment =>
                 Returned {| Payment := payment;
                             Owner := payer_address signing;
                             Price := active_gas_price; Budget := b |}
             end
         end, w2)
    | (Raised e, w2) => (Raised e, w2)
    | (OutOfFuel, w2) => (OutOfFuel, w2)
    end = (Returned gas, w') →
    ∃ b w2, m = (Returned b, w2) ∧
      Owner gas = payer_address signing ∧
      Price gas = active_gas_price ∧
      Budget gas = b ∧
      ∃ selection,
        selection `sublist_of`
          filter (λ x, coin_object_id x ∉ objects_in_use) coins ∧
        Payment gas = from_gql_ref <$> selection ∧
        Budget gas ≤ sum_balances selection) as Hany.
  { intros [[b|e|] w2]; try done. intros Hrun. exists b, w2.
    split; [done|]. by apply (Htail b w2). }
  intros (b & w2 & Hbudget & Howner & Hprice & Hb & selection & Hsel)%Hany.
  repeat split; try done.
  - intros b' -> Hb'. rewrite (proj2 (Z.eqb_neq b' 0) Hb') in Hbudget.
    by simplify_eq.
  - by exists coins, w1, selection.
Qed.

Lemma the_strs_all_str (l : list (string + SuiCoinObjectGQL)) :
  forallb is_str l = true → inl <$> the_strs l = l.
Proof.
  induction l as [|[s|c] l IH]; simpl; [done| |done].
  intros Hl. unfold the_strs in *. csimpl. f_equal. by apply IH.
Qed.

Lemma the_coins_all_coin (l : list (string + SuiCoinObjectGQL)) :
  forallb is_coin l = true → inr <$> the_coins l = l.
Proof.
  induction l as [|[s|c] l IH]; simpl; [done|done|].
  intros Hl. unfold the_coins in *. csimpl. f_equal. by apply IH.
Qed.

(** X6: With a non-empty list of coin objects and an explicit non-zero budget a
    resolution issues no query at all: the remote state and the log are left
    as they were, and the outcome is that of filtering the given coins, in
    their order, and selecting among them. *)
Theorem prefetched_coins_and_budget_issue_no_query fuel signing b x l
    objects_in_use active_gas_price tx_kind w :
  b ≠ 0 →
  forallb is_coin (x :: l) = true →
  inr <$> the_coins (x :: l) = x :: l ∧
  get_gas_data answer fuel signing (Some b) (Some (x :: l)) objects_in_use
    active_gas_price tx_kind w
  = (match filter (λ c, coin_object_id c ∉ objects_in_use)
             (the_coins (x :: l)) with
     | [] => Raised NoCoinObjectsFound
     | c :: cs =>
         match _coins_for_budget (c :: cs) b with
         | inl e => Raised e
         | inr payment =>
             Returned {| Payment := payment;
                         Owner := payer_address signing;
                         Price := active_gas_price;
                         Budget := b |}
         end
     end, w).
Proof.
  intros Hb Hcoins. split; [by apply the_coins_all_coin|].
  assert (available_coins answer fuel signing (Some (x :: l)) w
          = (Returned (the_coins (x :: l)), w)) as Hav.
  { unfold available_coins. rewrite Hcoins.
    destruct x as [s|c]; [done|]. done. }
  rewrite (get_gas_data_after_coins answer _ _ _ _ _ _ _ _ _ _ Hav).
  by rewrite (proj2 (Z.eqb_neq b 0) Hb).
Qed.

(** X7: With a non-empty list of identifiers a resolution first asks for exactly
    these identifiers, in the order given, in one query; it issues no other
    coin query, and when that query fails it raises the retrieval error with
    the remote message, whatever the budget, before any dry run. *)
Theorem coin_ids_are_fetched_in_one_query fuel signing budget x l
    objects_in_use active_gas_price tx_kind w :
  forallb is_str (x :: l) = true →
  inl <$> the_strs (x :: l) = x :: l ∧
  (∃ estimate,
     issued (get_gas_data answer fuel signing budget (Some (x :: l))
               objects_in_use active_gas_price tx_kind w).2
       = issued w ++ GetMultipleGasObjects (the_strs (x :: l)) :: estimate ∧
     Forall (λ q, is_dry_run q = true) estimate) ∧
  (∀ result_string s',
     answer (GetMultipleGasObjects (the_strs (x :: l))) (remote_state w)
       = (RpcFailed result_string, s') →
     get_gas_data answer fuel signing budget (Some (x :: l)) objects_in_use
       active_gas_price tx_kind w
     = (Raised (ErrorRetrievingCoins result_string),
        {| remote_state := s';
           issued := issued w ++
                       [GetMultipleGasObjects (the_strs (x :: l))] |})).
Proof.
  intros Hstr. split; [by apply the_strs_all_str|].
  assert (available_coins answer fuel signing (Some (x :: l)) w
          = _get_gas_objects answer (the_strs (x :: l)) w) as Hav.
  { unfold available_coins. by rewrite Hstr. }
  assert (issued (_get_gas_objects answer (the_strs (x :: l)) w).2
          = issued w ++ [GetMultipleGasObjects (the_strs (x :: l))]) as Hlog.
  { unfold _get_gas_objects.
    rewrite (bind_execute_query answer (GetMultipleGasObjects _)).
    by destruct (answer _ _).1. }
  split.
  - destruct (get_gas_data_log answer fuel signing budget (Some (x :: l))
                objects_in_use active_gas_price tx_kind w)
      as (fetches & estimate & Hrun & Hfetch & _ & Hestimate).
    rewrite Hav, Hlog in Hfetch. apply app_inv_head in Hfetch as <-.
    exists estimate. split; [by rewrite Hrun|].
    rewrite Hestimate. destruct (_ .1); try constructor.
    destruct budget as [b|]; [destruct (b =? 0)|]; by repeat constructor.
  - intros msg s' Hans. unfold get_gas_data. rewrite bind_run, Hav.
    unfold _get_gas_objects.
    rewrite (bind_execute_query answer (GetMultipleGasObjects _)).
    by rewrite Hans.
Qed.

(** X8: Without a budget (or with the budget 0) and once the candidate coins are
    there, a resolution issues the dry run and follows its answer before
    looking at the coins: a failed query or a status other than SUCCESS
    raises the estimator's error even when no coin could pay, and on SUCCESS
    the budget is the computation cost plus the storage cost. *)
Theorem resolution_follows_the_estimate fuel signing budget use_coins
    objects_in_use active_gas_price tx_kind w coins w1 :
  budget = None ∨ budget = Some 0 →
  available_coins answer fuel signing use_coins w = (Returned coins, w1) →
  let q := estimate_query signing active_gas_price tx_kind in
  let run := get_gas_data answer fuel signing budget use_coins objects_in_use
               active_gas_price tx_kind w in
  (∀ result_string s',
     answer q (remote_state w1) = (RpcFailed result_string, s') →
     run = (Raised (ErrorRunningDryRun result_string),
            {| remote_state := s'; issued := issued w1 ++ [q] |})) ∧
  (∀ result_data s',
     answer q (remote_state w1) = (RpcOk result_data, s') →
     status result_data ≠ "SUCCESS" →
     run = (Raised (DryRunErrors (errors result_data)),
            {| remote_state := s'; issued := issued w1 ++ [q] |})) ∧
  (∀ result_data s',
     answer q (remote_state w1) = (RpcOk result_data, s') →
     status result_data = "SUCCESS" →
     run = (match filter (λ c, coin_object_id c ∉ objects_in_use) coins with
            | [] => Raised NoCoinObjectsFound
            | c :: cs =>
                match _coins_for_budget (c :: cs)
                        (computationCost result_data
                         + storageCost result_data) with
                | inl e => Raised e
                | inr payment =>
                    Returned {| Payment := payment;
                                Owner := payer_address signing;
                                Price := active_gas_price;
                                Budget := computationCost result_data
                                          + storageCost result_data |}
                end
            end,
            {| remote_state := s'; issued := issued w1 ++ [q] |})).
Proof.
  intros Hbudget Hav q run. subst run.
  rewrite (get_gas_data_after_coins answer _ _ _ _ _ _ _ _ _ _ Hav).
  assert (match budget with
          | Some b =>
              if b =? 0
              then _dry_run_for_budget answer signing
                     (b64encode (serialize tx_kind)) active_gas_price w1
              else (Returned b, w1)
          | None => _dry_run_for_budget answer signing
                      (b64encode (serialize tx_kind)) active_gas_price w1
          end
          = _dry_run_for_budget answer signing
              (b64encode (serialize tx_kind)) active_gas_price w1) as ->.
  { by destruct Hbudget as [->| ->]. }
  unfold _dry_run_for_budget.
  rewrite (bind_execute_query answer (DryRunTransactionKind _ _ _)).
  fold (estimate_query signing active_gas_price tx_kind). fold q.
  repeat split.
  - intros msg s' Hans. by rewrite Hans.
  - intros d s' Hans Hstatus. rewrite Hans. simpl.
    by rewrite bool_decide_eq_false_2.
  - intros d s' Hans Hstatus. rewrite Hans. simpl.
    by rewrite bool_decide_eq_true_2.
Qed.

Lemma filter_all_reserved (objects_in_use : gset string)
    (coins : list SuiCoinObjectGQL) :
  Forall (λ x, coin_object_id x ∈ objects_in_use) coins →
  filter (λ x, coin_object_id x ∉ objects_in_use) coins = [].
Proof.
  induction 1 as [|c cs Hc _ IH]; [done|].
  rewrite filter_cons_False; [done|]. by intros Hn.
Qed.

(** X9: When every candidate coin is reserved, or there is none, a resolution
    with an explicit non-zero budget raises the no-coins error, not the
    insufficient-funds one; in particular, when no coin list is given and the
    first coin query fails, the failure surfaces as that no-coins error. *)
Theorem reserved_or_unreachable_coins_raise_no_coins fuel signing b use_coins
    objects_in_use active_gas_price tx_kind w :
  b ≠ 0 →
  (∀ coins w1,
     available_coins answer fuel signing use_coins w = (Returned coins, w1) →
     Forall (λ x, coin_object_id x ∈ objects_in_use) coins →
     get_gas_data answer fuel signing (Some b) use_coins objects_in_use
       active_gas_price tx_kind w = (Raised NoCoinObjectsFound, w1)) ∧
  (∀ result_string s',
     use_coins = None ∨ use_coins = Some [] →
     answer (GetCoins (payer_address signing) None) (remote_state w)
       = (RpcFailed result_string, s') →
     get_gas_data answer fuel signing (Some b) use_coins objects_in_use
       active_gas_price tx_kind w
     = (Raised NoCoinObjectsFound,
        {| remote_state := s';
           issued := issued w ++ [GetCoins (payer_address signing) None] |})).
Proof.
  intros Hb.
  assert (∀ coins w1,
     available_coins answer fuel signing use_coins w = (Returned coins, w1) →
     Forall (λ x, coin_object_id x ∈ objects_in_use) coins →
     get_gas_data answer fuel signing (Some b) use_coins objects_in_use
       active_gas_price tx_kind w = (Raised NoCoinObjectsFound, w1)) as Hres.
  { intros coins w1 Hav Hall.
    rewrite (get_gas_data_after_coins answer _ _ _ _ _ _ _ _ _ _ Hav).
    rewrite (proj2 (Z.eqb_neq b 0) Hb).
    by rewrite (filter_all_reserved _ _ Hall). }
  split; [done|].
  intros msg s' Huse Hans. apply (Hres []); [|constructor].
  assert (available_coins answer fuel signing use_coins w
          = _get_all_gas_objects answer fuel signing w) as ->.
  { by destruct Huse as [->| ->]. }
  unfold _get_all_gas_objects. destruct w as [s log]. simpl in *.
  apply (get_all_loop_exchange answer _ _ _ _ [] QueryFailed).
  - by eapply exchange_failed.
  - simpl. lia.
Qed.

End ResolutionBeyond.

(** ** The further properties at sample inputs *)

(** Coins of 50, 30 and 40 for a budget of 60: the first two are taken. *)
Lemma accumulated_selection_below_twice_budget_witness :
  0 < 60 ∧
  coin_fit [c1; c2; c3] 60 = [] ∧
  _coins_for_budget [c1; c2; c3] 60
    = inr [from_gql_ref c1; from_gql_ref c2] ∧
  ∃ selection,
    [from_gql_ref c1; from_gql_ref c2] = from_gql_ref <$> selection ∧
    selection `prefix_of` [c1; c2; c3] ∧
    60 ≤ sum_balances selection < 2 * 60.
Proof.
  assert (0 < 60) as Hpos by reflexivity.
  assert (coin_fit [c1; c2; c3] 60 = []) as Hfit by reflexivity.
  assert (_coins_for_budget [c1; c2; c3] 60
          = inr [from_gql_ref c1; from_gql_ref c2]) as Hrun by reflexivity.
  repeat (split; [assumption|]).
  exact (accumulated_selection_below_twice_budget [c1; c2; c3] 60 _
           Hpos Hfit Hrun).
Defined.

(** The selection among coins of 50 and 30 is the same with a coin of 40
    behind them. *)
Lemma selection_ignores_later_coins_witness :
  _coins_for_budget [c1; c2] 60 = inr [from_gql_ref c1; from_gql_ref c2] ∧
  _coins_for_budget ([c1; c2] ++ [c3]) 60
    = inr [from_gql_ref c1; from_gql_ref c2].
Proof.
  assert (_coins_for_budget [c1; c2] 60
          = inr [from_gql_ref c1; from_gql_ref c2]) as Hrun by reflexivity.
  split; [assumption|].
  apply (proj2 (selection_ignores_later_coins [c1; c2] 60 _ Hrun) [c3]).
  repeat constructor; vm_compute; discriminate.
Defined.

(** A resolution against the sample ledger, with the budget estimated. *)
Lemma returned_gas_data_is_funded_witness :
  get_gas_data ledger_answer 5 alice None None ∅ 1000 some_tx fresh
    = (Returned {| Payment := [from_gql_ref c1; from_gql_ref c2];
                   Owner := "0xa11ce"; Price := 1000; Budget := 60 |},
       {| remote_state := 3%nat;
          issued :=
            [GetCoins "0xa11ce" None;
             GetCoins "0xa11ce"
               (Some {| hasNextPage := true; endCursor := Some "p2" |});
             estimate_query alice 1000 some_tx] |}) ∧
  ∃ selection,
    [from_gql_ref c1; from_gql_ref c2] = from_gql_ref <$> selection ∧
    60 ≤ sum_balances selection.
Proof.
  assert (get_gas_data ledger_answer 5 alice None None ∅ 1000 some_tx fresh
    = (Returned {| Payment := [from_gql_ref c1; from_gql_ref c2];
                   Owner := "0xa11ce"; Price := 1000; Budget := 60 |},
       {| remote_state := 3%nat;
          issued :=
            [GetCoins "0xa11ce" None;
             GetCoins "0xa11ce"
               (Some {| hasNextPage := true; endCursor := Some "p2" |});
             estimate_query alice 1000 some_tx] |})) as Hrun
    by (vm_compute; reflexivity).
  split; [assumption|].
  destruct (returned_gas_data_is_funded ledger_answer 5 alice None None ∅
              1000 some_tx fresh _ _ Hrun)
    as (_ & _ & _ & coins & w1 & selection & _ & _ & Hpay & Hcov).
  exists selection. split; assumption.
Defined.

(** The big coin is reserved, the next one pays, and nothing was asked of
    the ledger. *)
Lemma prefetched_coins_and_budget_issue_no_query_witness :
  40 ≠ 0 ∧
  forallb is_coin [inr big; inr c1] = true ∧
  get_gas_data ledger_answer 5 alice (Some 40) (Some [inr big; inr c1])
    {["0xb1"]} 1000 some_tx fresh
  = (Returned {| Payment := [from_gql_ref c1]; Owner := "0xa11ce";
                 Price := 1000; Budget := 40 |}, fresh).
Proof.
  assert (40 ≠ 0) as Hb by discriminate.
  assert (forallb is_coin [inr big; inr c1] = true) as Hcoins by reflexivity.
  repeat (split; [assumption|]).
  rewrite (proj2 (prefetched_coins_and_budget_issue_no_query ledger_answer 5
                    alice 40 (inr big) [inr c1] {["0xb1"]} 1000 some_tx
                    fresh Hb Hcoins)).
  vm_compute. reflexivity.
Defined.

(** Two identifiers, and a ledger that is down. *)
Lemma coin_ids_are_fetched_in_one_query_witness :
  forallb is_str [inl "0xc1"; inl "0xc3"] = true ∧
  get_gas_data down_answer 5 alice None (Some [inl "0xc1"; inl "0xc3"]) ∅
    1000 some_tx fresh
  = (Raised (ErrorRetrievingCoins "unreachable"),
     {| remote_state := 1%nat;
        issued := [GetMultipleGasObjects ["0xc1"; "0xc3"]] |}).
Proof.
  assert (forallb is_str [inl "0xc1"; inl "0xc3"] = true) as Hstr
    by reflexivity.
  split; [assumption|].
  exact (proj2 (proj2 (coin_ids_are_fetched_in_one_query down_answer 5 alice
                         None (inl "0xc1") [inl "0xc3"] ∅ 1000 some_tx fresh
                         Hstr))
           "unreachable" 1%nat eq_refl).
Defined.

(** The sample ledger estimates 40 + 20 for two given coins. *)
Lemma resolution_follows_the_estimate_witness :
  (@None Z = None ∨ None = Some 0) ∧
  available_coins ledger_answer 5 alice (Some [inr c1; inr c2]) fresh
    = (Returned [c1; c2], fresh) ∧
  get_gas_data ledger_answer 5 alice None (Some [inr c1; inr c2]) ∅ 1000
    some_tx fresh
  = (Returned {| Payment := [from_gql_ref c1; from_gql_ref c2];
                 Owner := "0xa11ce"; Price := 1000; Budget := 60 |},
     {| remote_state := 1%nat;
        issued := [estimate_query alice 1000 some_tx] |}).
Proof.
  assert (@None Z = None ∨ None = Some 0) as Hbudget by (left; reflexivity).
  assert (available_coins ledger_answer 5 alice (Some [inr c1; inr c2]) fresh
          = (Returned [c1; c2], fresh)) as Hav by reflexivity.
  repeat (split; [assumption|]).
  rewrite (proj2 (proj2 (resolution_follows_the_estimate ledger_answer 5
                           alice None (Some [inr c1; inr c2]) ∅ 1000 some_tx
                           fresh [c1; c2] fresh Hbudget Hav))
             {| status := "SUCCESS"; computationCost := 40;
                storageCost := 20; errors := [] |} 1%nat eq_refl eq_refl).
  vm_compute. reflexivity.
Defined.

(** No coin list, a budget of 40, and a ledger that is down. *)
Lemma reserved_or_unreachable_coins_raise_no_coins_witness :
  40 ≠ 0 ∧
  get_gas_data down_answer 0 alice (Some 40) None ∅ 1000 some_tx fresh
  = (Raised NoCoinObjectsFound,
     {| remote_state := 1%nat; issued := [GetCoins "0xa11ce" None] |}).
Proof.
  assert (40 ≠ 0) as Hb by discriminate.
  split; [assumption|].
  exact (proj2 (reserved_or_unreachable_coins_raise_no_coins down_answer 0
                  alice 40 None ∅ 1000 some_tx fresh Hb)
           "unreachable" 1%nat (or_introl eq_refl) eq_refl).
Defined.

(** * Properties of profile groups *)

Module ConfGroupFacts.
Import ConfGroup.

(** Runs a method body on a state. *)
Ltac run :=
  unfold add_keypair_and_parts, add_profile;
  unfold set_active_address, active_address, active_alias, set_active_alias,
    address_for_alias, alias_for_address, alias_name_for_address,
    replace_alias_name, active_profile, set_active_profile,
    populate, append_profile,
    set_alias, set_using_address, set_using_profile,
    mbind, Method_bind, mret, Method_ret, get, lift, raises, id;
  simpl.

(** Case analysis on a scrutinee that holds no other case analysis. *)
Ltac case_innermost :=
  match goal with
  | |- context [match ?x with _ => _ end] =>
      lazymatch x with
      | context [match _ with _ => _ end] => fail
      | _ => destruct x eqn:?; simpl
      end
  end.

Section Lists.

Context {A : Type} (P : A → Prop) `{!∀ x, Decision (P x)}.

Lemma next_filter_Some l x :
  next_filter P l = Some x →
  ∃ l1 l2, l = l1 ++ x :: l2 ∧ Forall (λ z, ¬ P z) l1 ∧ P x.
Proof.
  unfold next_filter. intros Hhead.
  destruct (head_filter_Some P l x Hhead) as (l1 & l2 & -> & Hl1).
  exists l1, l2. repeat split; [done|].
  assert (x ∈ filter P (l1 ++ x :: l2)) as Hx.
  { destruct (filter P (l1 ++ x :: l2)); simplify_eq/=. left. }
  by apply list_elem_of_filter in Hx as [? _].
Qed.

Lemma next_filter_None l :
  next_filter P l = None ↔ Forall (λ z, ¬ P z) l.
Proof.
  unfold next_filter. split.
  - intros Hhead. apply Forall_forall. intros x Hx HP.
    assert (x ∈ filter P l) as Hin by (by apply list_elem_of_filter).
    destruct (filter P l); [by apply elem_of_nil in Hin | done].
  - intros Hall. induction Hall as [|x l Hx _ IH]; [done|].
    by rewrite filter_cons_False.
Qed.

Lemma next_filter_first l1 x l2 :
  Forall (λ z, ¬ P z) l1 → P x → next_filter P (l1 ++ x :: l2) = Some x.
Proof.
  intros Hl1 Hx. unfold next_filter. rewrite filter_app.
  replace (filter P l1) with (@nil A).
  - simpl. by rewrite filter_cons_True.
  - symmetry. induction Hl1 as [|y l Hy _ IH]; [done|].
    by rewrite filter_cons_False.
Qed.

Lemma list_find_first l1 x l2 :
  Forall (λ z, ¬ P z) l1 → P x →
  list_find P (l1 ++ x :: l2) = Some (length l1, x).
Proof.
  intros Hl1 Hx. apply list_find_Some. split; [|split; [done|]].
  - by rewrite list_lookup_middle.
  - intros j y Hj Hlt. rewrite lookup_app_l in Hj by done.
    rewrite Forall_forall in Hl1. apply Hl1.
    by eapply list_elem_of_lookup_2.
Qed.

End Lists.

Implicit Types (st : State).

(** Where a name is found in [alias_list], and what [index] makes of it. *)
Lemma alias_position a st r :
  _alias_exists a st = Some r →
  ∃ l1 l2,
    alias_list (self st) = l1 ++ r :: l2 ∧
    Forall (λ y, alias (objects st y) ≠ a) l1 ∧
    alias (objects st r) = a ∧
    index_object (objects st) (alias_list (self st)) r = inr (length l1).
Proof.
  intros (l1 & l2 & Hl & Hl1 & Hr)%next_filter_Some.
  exists l1, l2. repeat split; try done.
  unfold index_object. rewrite Hl, list_find_first; [done| |by left].
  eapply Forall_impl; [exact Hl1|]. simpl.
  intros y Hy [->|Heq]; [done|]. apply Hy. by rewrite Heq.
Qed.

Lemma alias_exists_None a st :
  _alias_exists a st = None ↔ a ∉ alias_names st.
Proof.
  unfold _alias_exists, alias_names. rewrite next_filter_None, Forall_forall.
  split.
  - intros Hall (y & -> & Hy)%list_elem_of_fmap. by apply (Hall y).
  - intros Hnot y Hy Ha. apply Hnot. apply list_elem_of_fmap. by exists y.
Qed.

Lemma alias_exists_Some a st :
  is_Some (_alias_exists a st) ↔ a ∈ alias_names st.
Proof.
  destruct (_alias_exists a st) as [r|] eqn:Hex.
  - split; [intros _|by eauto].
    destruct (decide (a ∈ alias_names st)) as [|Hn]; [done|].
    apply alias_exists_None in Hn. congruence.
  - split; [by intros [? ?]|]. intros Hin.
    by apply alias_exists_None in Hex.
Qed.

(** Where an address is found in [address_list]. *)
Lemma address_position address st x :
  _address_exists address st = Some x →
  x = address ∧
  ∃ l1 l2,
    address_list (self st) = l1 ++ address :: l2 ∧
    (address ∉ l1) ∧
    index (address_list (self st)) address = inr (length l1).
Proof.
  intros (l1 & l2 & Hl & Hl1 & ->)%next_filter_Some.
  split; [done|]. exists l1, l2.
  assert (address ∉ l1) as Hnot.
  { intros Hin. rewrite Forall_forall in Hl1. by apply (Hl1 address). }
  repeat split; try done.
  unfold index. by rewrite Hl, list_find_first.
Qed.

Lemma address_exists_None address st :
  _address_exists address st = None ↔ address ∉ address_list (self st).
Proof.
  unfold _address_exists. rewrite next_filter_None, Forall_forall.
  split; [intros Hall Hin; by apply (Hall address) | by intros ? ? ? ->].
Qed.

Lemma index_NotInList l x : x ∉ l → index l x = inl NotInList.
Proof.
  intros Hnot. unfold index.
  destruct (list_find _ l) as [[i y]|] eqn:Hfind; [|done].
  apply list_find_Some in Hfind as (Hi & -> & _).
  destruct Hnot. by eapply list_elem_of_lookup_2.
Qed.

Lemma index_first l1 x l2 :
  x ∉ l1 → index (l1 ++ x :: l2) x = inr (length l1).
Proof.
  intros Hnot. unfold index. rewrite list_find_first; [done| |done].
  apply Forall_forall. by intros y Hy ->.
Qed.

Lemma key_exists_None key st :
  _key_exists key st = None ↔
  key ∉ private_key_base64 <$> key_list (self st).
Proof.
  unfold _key_exists. rewrite next_filter_None, Forall_forall. split.
  - intros Hall (y & -> & Hy)%list_elem_of_fmap. by apply (Hall y).
  - intros Hnot y Hy Ha. apply Hnot. apply list_elem_of_fmap. by exists y.
Qed.

Lemma profile_exists_None name st :
  _profile_exists name st = None ↔
  name ∉ profile_name <$> profiles (self st).
Proof.
  unfold _profile_exists. rewrite next_filter_None, Forall_forall. split.
  - intros Hall (y & -> & Hy)%list_elem_of_fmap. by apply (Hall y).
  - intros Hnot y Hy Ha. apply Hnot. apply list_elem_of_fmap. by exists y.
Qed.

(** What [address_for_alias] computes: the address at the position of the
    first alias of that name. *)
Lemma address_for_alias_run a st :
  address_for_alias a st
  = match _alias_exists a st with
    | Some r =>
        (match index_object (objects st) (alias_list (self st)) r with
         | inr i => item (address_list (self st)) i
         | inl e => inl e
         end, st)
    | None => (inl (AliasNotFound a), st)
    end.
Proof.
  run. destruct (_alias_exists a st); [|done].
  by destruct (index_object _ _ _).
Qed.

Lemma alias_name_for_address_run address st :
  alias_name_for_address address st
  = match _address_exists address st with
    | Some x =>
        if truthy x then
          (match index (address_list (self st)) x with
           | inr i =>
               match item (alias_list (self st)) i with
               | inr r => inr (alias (objects st r))
               | inl e => inl e
               end
           | inl e => inl e
           end, st)
        else (inl (AddressNotFound address), st)
    | None => (inl (AddressNotFound address), st)
    end.
Proof.
  run. destruct (_address_exists address st) as [x|]; [|done].
  destruct (truthy x); [|done].
  destruct (index _ _); [done|]. simpl. by destruct (item _ _).
Qed.

Lemma truthy_true s : s ≠ "" → truthy s = true.
Proof.
  intros Hs. unfold truthy. destruct (String.eqb_spec s ""); done.
Qed.

(** X10: [add_keypair_and_parts] never returns: every path ends in a [raise].
    With a key string already in the group nothing changes.  With a new key
    string and an alias name already in the group, nothing changes either.
    With both new, the address, the key and the alias object are appended to
    their lists (and the address made current when asked), and the call then
    raises the error that says the key string already exists. *)
Theorem add_keypair_and_parts_always_raises new_address new_alias new_key
    make_active st :
  let name := alias (objects st new_alias) in
  let key := private_key_base64 new_key in
  let run := add_keypair_and_parts new_address new_alias new_key make_active
               st in
  (∀ v, run.1 ≠ inr v) ∧
  (key ∈ private_key_base64 <$> key_list (self st) →
   run = (inl (KeystringAlreadyExists key), st)) ∧
  (key ∉ private_key_base64 <$> key_list (self st) →
   name ∈ alias_names st →
   run = (inl (AliasExistsForNewKey name), st)) ∧
  (key ∉ private_key_base64 <$> key_list (self st) →
   name ∉ alias_names st →
   run.1 = inl (KeystringAlreadyExists key) ∧
   objects run.2 = objects st ∧
   alias_list (self run.2) = alias_list (self st) ++ [new_alias] ∧
   key_list (self run.2) = key_list (self st) ++ [new_key] ∧
   address_list (self run.2) = address_list (self st) ++ [new_address] ∧
   using_address (self run.2)
     = (if make_active then new_address else using_address (self st)) ∧
   using_profile (self run.2) = using_profile (self st) ∧
   profiles (self run.2) = profiles (self st) ∧
   group_name (self run.2) = group_name (self st)).
Proof.
  intros name key run0. subst run0 name key.
  pose proof (key_exists_None (private_key_base64 new_key) st) as Hkey.
  pose proof (alias_exists_None (alias (objects st new_alias)) st) as Hali.
  run.
  destruct (_key_exists _ st) as [pk|] eqn:Hk.
  - split; [done|]. split; [done|].
    split; intros Hnew; by apply Hkey in Hnew.
  - assert (private_key_base64 new_key
            ∉ private_key_base64 <$> key_list (self st)) as Hnew
      by (by apply Hkey).
    destruct (_alias_exists _ st) as [r|] eqn:Ha.
    + split; [done|]. split; [done|]. split; [done|].
      intros _ Hn. by apply Hali in Hn.
    + assert (alias (objects st new_alias) ∉ alias_names st) as Hfresh
        by (by apply Hali).
      destruct make_active; simpl; repeat split; try done.
Qed.

(** X11: Every method leaves the address, key and alias lists of one length when
    they were of one length. *)
Theorem methods_keep_lists_aligned st :
  aligned st →
  (∀ change_to, aligned (set_active_address change_to st).2) ∧
  (∀ change_to, aligned (set_active_alias change_to st).2) ∧
  (∀ from_alias to_alias,
     aligned (replace_alias_name from_alias to_alias st).2) ∧
  (∀ change_to, aligned (set_active_profile change_to st).2) ∧
  (∀ new_address new_alias new_key make_active,
     aligned (add_keypair_and_parts new_address new_alias new_key
                make_active st).2) ∧
  (∀ new_prf make_active, aligned (add_profile new_prf make_active st).2) ∧
  (∀ a, aligned (address_for_alias a st).2) ∧
  (∀ address, aligned (alias_for_address address st).2) ∧
  (∀ address, aligned (alias_name_for_address address st).2) ∧
  aligned (active_alias st).2 ∧
  aligned (active_profile st).2.
Proof.
  intros [Haddr Hkey]. unfold aligned. repeat split; intros; run;
    repeat case_innermost; rewrite ?length_app; simpl; lia.
Qed.

Lemma item_middle {A} (l1 : list A) x l2 :
  item (l1 ++ x :: l2) (length l1) = inr x.
Proof. unfold item. by rewrite list_lookup_middle. Qed.

Lemma item_inr {A} (l : list A) i x : item l i = inr x → l !! i = Some x.
Proof. unfold item. destruct (l !! i); by intros ?; simplify_eq. Qed.

(** X12: In a group whose addresses are pairwise distinct and whose alias names
    are pairwise distinct, looking up the address of an alias and the alias
    name of an address are inverse to each other (for an address that is not
    the empty string); neither lookup changes the group. *)
Theorem alias_and_address_lookups_are_inverse st :
  NoDup (address_list (self st)) →
  NoDup (alias_names st) →
  (∀ a address,
     (address_for_alias a st).1 = inr address → address ≠ "" →
     alias_name_for_address address st = (inr a, st)) ∧
  (∀ address a,
     (alias_name_for_address address st).1 = inr a →
     address_for_alias a st = (inr address, st)).
Proof.
  intros Haddrs Hnames. split.
  - intros a address. rewrite address_for_alias_run.
    destruct (_alias_exists a st) as [r|] eqn:Ha; [|done].
    destruct (alias_position _ _ _ Ha) as (l1 & l2 & Hl & _ & Hr & ->).
    simpl. intros Hitem%item_inr Hne.
    rewrite alias_name_for_address_run.
    destruct (_address_exists address st) as [x|] eqn:Hx.
    2:{ apply address_exists_None in Hx. destruct Hx.
        by eapply list_elem_of_lookup_2. }
    destruct (address_position _ _ _ Hx) as (-> & m1 & m2 & Hm & _ & ->).
    rewrite truthy_true by done.
    assert (length m1 = length l1) as ->.
    { eapply NoDup_lookup; [exact Haddrs| |exact Hitem].
      rewrite Hm. apply list_lookup_middle. done. }
    by rewrite Hl, item_middle, Hr.
  - intros address a. rewrite alias_name_for_address_run.
    destruct (_address_exists address st) as [x|] eqn:Hx; [|done].
    destruct (address_position _ _ _ Hx) as (-> & m1 & m2 & Hm & _ & ->).
    destruct (truthy address); [|done]. simpl.
    destruct (item (alias_list (self st)) (length m1)) as [e|r'] eqn:Hitem;
      [done|].
    simpl. intros ?; simplify_eq. apply item_inr in Hitem.
    rewrite address_for_alias_run.
    destruct (_alias_exists (alias (objects st r')) st) as [r|] eqn:Ha.
    2:{ apply alias_exists_None in Ha. destruct Ha.
        apply list_elem_of_fmap. exists r'. split; [done|].
        by eapply list_elem_of_lookup_2. }
    destruct (alias_position _ _ _ Ha) as (l1 & l2 & Hl & _ & Hr & ->).
    assert (length l1 = length m1) as ->.
    { eapply (NoDup_lookup (alias_names st)); [exact Hnames| |].
      - unfold alias_names. rewrite Hl, list_lookup_fmap.
        rewrite list_lookup_middle by done. simpl. by rewrite Hr.
      - unfold alias_names. by rewrite list_lookup_fmap, Hitem. }
    by rewrite Hm, item_middle.
Qed.

(** X13: The empty string is never found as an address, even when the address
    list holds it: the string [_address_exists] returns is tested for truth. *)
Theorem empty_address_is_never_found st :
  alias_for_address "" st = (inl (AddressNotFound ""), st) ∧
  alias_name_for_address "" st = (inl (AddressNotFound ""), st).
Proof.
  split; run; destruct (_address_exists "" st) as [x|] eqn:Hx; try done;
    by destruct (address_position _ _ _ Hx) as (-> & _).
Qed.

(** X14: Setting the active address validates it against the address list: a
    listed address becomes the current one and nothing else changes; an
    unlisted one raises the [ValueError] of [list.index] and the group is
    left as it was. *)
Theorem set_active_address_validates change_to st :
  (change_to ∈ address_list (self st) →
   ∃ st',
     set_active_address change_to st = (inr change_to, st') ∧
     active_address st' = (inr change_to, st') ∧
     objects st' = objects st ∧
     alias_list (self st') = alias_list (self st) ∧
     key_list (self st') = key_list (self st) ∧
     address_list (self st') = address_list (self st) ∧
     profiles (self st') = profiles (self st) ∧
     using_profile (self st') = using_profile (self st) ∧
     group_name (self st') = group_name (self st)) ∧
  (change_to ∉ address_list (self st) →
   set_active_address change_to st = (inl NotInList, st)).
Proof.
  split.
  - intros (l1 & l2 & Hl)%list_elem_of_split_l.
    destruct Hl as [Hl Hnot]. run.
    rewrite Hl, index_first by done. simpl. by eexists.
  - intros Hnot. run. by rewrite index_NotInList.
Qed.

(** X15: [replace_alias_name] refuses a name that is not in the group and a new
    name that is already taken, the old name itself included, and leaves the
    group as it was. *)
Theorem replace_alias_name_rejects from_alias to_alias st :
  (from_alias ∉ alias_names st →
   replace_alias_name from_alias to_alias st
     = (inl (AliasNotFound from_alias), st)) ∧
  (from_alias ∈ alias_names st → to_alias ∈ alias_names st →
   replace_alias_name from_alias to_alias st
     = (inl (AliasAlreadyExists to_alias), st)) ∧
  (∀ v, (replace_alias_name from_alias from_alias st).1 ≠ inr v).
Proof.
  repeat split.
  - intros Hnot%alias_exists_None. run. by rewrite Hnot.
  - intros [r Hr]%alias_exists_Some [r' Hr']%alias_exists_Some.
    run. by rewrite Hr, Hr'.
  - intros v. run.
    destruct (_alias_exists from_alias st); by simpl.
Qed.

(** X16: Renaming an alias to a name that is free: the one alias object found
    under the old name gets the new name, every position of the alias list
    holding that object shows it, the public keys and the lists are
    untouched, and the address returned is the one the old name stood for,
    which the new name now stands for.  When the alias names were pairwise
    distinct they still are, and the old name is gone. *)
Theorem replace_alias_name_renames from_alias to_alias st r :
  _alias_exists from_alias st = Some r →
  to_alias ∉ alias_names st →
  let run := replace_alias_name from_alias to_alias st in
  run.1 = (address_for_alias from_alias st).1 ∧
  self run.2 = self st ∧
  alias_names run.2
    = (λ y, if decide (y = r) then to_alias else alias (objects st y))
        <$> alias_list (self st) ∧
  (∀ y, public_key_base64 (objects run.2 y)
        = public_key_base64 (objects st y)) ∧
  (address_for_alias to_alias run.2).1 = (address_for_alias from_alias st).1 ∧
  (NoDup (alias_names st) →
   NoDup (alias_names run.2) ∧ from_alias ∉ alias_names run.2).
Proof.
  intros Hfrom Hfree run0. subst run0.
  pose proof Hfree as Hto. apply alias_exists_None in Hto.
  destruct (alias_position _ _ _ Hfrom) as (l1 & l2 & Hl & Hl1 & Hr & Hidx).
  assert ((replace_alias_name from_alias to_alias st).2
          = {| self := self st;
               objects :=
                 <[r := {| alias := to_alias;
                           public_key_base64 :=
                             public_key_base64 (objects st r) |}]>
                   (objects st) |}) as Hst.
  { run. rewrite Hfrom, Hto, Hidx. simpl.
    by destruct (item (address_list (self st)) (length l1)). }
  assert ((replace_alias_name from_alias to_alias st).1
          = item (address_list (self st)) (length l1)) as Hres.
  { run. rewrite Hfrom, Hto, Hidx. simpl.
    by destruct (item (address_list (self st)) (length l1)). }
  assert ((address_for_alias from_alias st).1
          = item (address_list (self st)) (length l1)) as Hold.
  { rewrite address_for_alias_run, Hfrom, Hidx. done. }
  rewrite Hst, Hres, Hold. clear Hst Hres Hold.
  set (st' := {| self := self st; objects := _ |}).
  assert (self st' = self st) as Hself by done.
  assert (∀ y, alias (objects st' y)
               = if decide (y = r) then to_alias else alias (objects st y))
    as Hname.
  { intros y. simpl. unfold insert, fn_insert.
    destruct (decide (r = y)), (decide (y = r)); simplify_eq; done. }
  assert (∀ y, public_key_base64 (objects st' y)
               = public_key_base64 (objects st y)) as Hpk.
  { intros y. simpl. unfold insert, fn_insert.
    by destruct (decide (r = y)); simplify_eq. }
  clearbody st'.
  assert (alias_names st'
          = (λ y, if decide (y = r) then to_alias else alias (objects st y))
              <$> alias_list (self st)) as Hnames.
  { unfold alias_names. rewrite Hself.
    apply list_fmap_ext. intros _ y _. apply Hname. }
  assert (Forall (λ y, y ≠ r) l1) as Hl1r.
  { eapply Forall_impl; [exact Hl1|]. simpl. by intros y Hy ->. }
  do 4 (split; [done|]). split; [|intros Hnd; split].
  - rewrite address_for_alias_run.
    assert (_alias_exists to_alias st' = Some r) as ->.
    { unfold _alias_exists. rewrite Hself, Hl.
      apply (next_filter_first
               (λ ally, alias (objects st' ally) = to_alias)).
      - apply Forall_forall. intros y Hy. rewrite Hname.
        rewrite Forall_forall in Hl1r. rewrite decide_False by by apply Hl1r.
        intros Heq. apply Hfree. apply list_elem_of_fmap. exists y.
        split; [done|]. rewrite Hl. set_solver.
      - rewrite Hname. by rewrite decide_True. }
    assert (index_object (objects st') (alias_list (self st')) r
            = inr (length l1)) as ->; [|by rewrite Hself].
    unfold index_object. rewrite Hself, Hl.
    rewrite list_find_first; [done| |by left].
    apply Forall_forall. intros y Hy [->|Heq].
    + rewrite Forall_forall in Hl1r. by apply (Hl1r r).
    + apply Hfree. apply list_elem_of_fmap. exists y.
      split; [|rewrite Hl; set_solver].
      assert (alias (objects st' y) = alias (objects st' r)) as Hal
        by (by rewrite Heq).
      rewrite !Hname in Hal. rewrite Forall_forall in Hl1r.
      rewrite (decide_False (P := y = r)) in Hal by by apply Hl1r.
      by rewrite decide_True in Hal.
  - rewrite Hnames. revert Hnd. unfold alias_names. rewrite Hl.
    rewrite !fmap_app, !fmap_cons. rewrite decide_True by done.
    intros Hnd. apply NoDup_app in Hnd as (Hnd1 & Hdisj & Hnd2).
    apply NoDup_cons in Hnd2 as [Hrl2 Hnd2].
    assert (∀ l : list ref, r ∉ l →
      (λ y, if decide (y = r) then to_alias else alias (objects st y)) <$> l
      = (λ y, alias (objects st y)) <$> l) as Hsame.
    { intros l Hnot. apply list_fmap_ext. intros i y Hy.
      rewrite decide_False; [done|]. intros ->. apply Hnot.
      by eapply list_elem_of_lookup_2. }
    assert (r ∉ l1) as Hr1.
    { intros Hin. rewrite Forall_forall in Hl1r. by apply (Hl1r r). }
    assert (r ∉ l2) as Hr2.
    { intros Hin. apply Hrl2. apply list_elem_of_fmap. by exists r. }
    rewrite !Hsame by done.
    assert (to_alias ∉ (λ y, alias (objects st y)) <$> l1) as Hto1.
    { intros Hin. apply Hfree. unfold alias_names. rewrite Hl, fmap_app.
      apply elem_of_app. by left. }
    assert (to_alias ∉ (λ y, alias (objects st y)) <$> l2) as Hto2.
    { intros Hin. apply Hfree. unfold alias_names. rewrite Hl, fmap_app.
      apply elem_of_app. right. by right. }
    apply NoDup_app. split; [done|]. split.
    + intros x Hx [->|Hx2]%elem_of_cons; [done|].
      apply (Hdisj x Hx). by right.
    + by apply NoDup_cons.
  - rewrite Hnames. revert Hnd. unfold alias_names. rewrite Hl.
    rewrite !fmap_app, !fmap_cons. rewrite decide_True by done.
    intros Hnd. apply NoDup_app in Hnd as (Hnd1 & Hdisj & Hnd2).
    apply NoDup_cons in Hnd2 as [Hrl2 Hnd2].
    assert (from_alias ≠ to_alias) as Hne.
    { intros ->. apply Hfree. unfold alias_names.
      apply list_elem_of_fmap. exists r. split; [done|].
      rewrite Hl. set_solver. }
    intros [Hin|[?|Hin]%elem_of_cons]%elem_of_app; [|done|].
    + apply list_elem_of_fmap in Hin as (y & Hy & Hyin).
      rewrite Forall_forall in Hl1r, Hl1.
      rewrite decide_False in Hy by by apply Hl1r.
      by apply (Hl1 y).
    + apply list_elem_of_fmap in Hin as (y & Hy & Hyin).
      destruct (decide (y = r)) as [->|Hyr]; [done|].
      apply Hrl2. rewrite Hr. apply list_elem_of_fmap. by exists y.
Qed.



(** X18: [set_active_profile] accepts exactly the names of the group's profiles:
    the first profile of that name in the list, the one no profile of that
    name comes before, is returned and becomes the active one that
    [active_profile] reads back, every other field staying as it was; and an
    unknown name raises and leaves the group as it was. *)
Theorem set_active_profile_validates change_to st :
  (change_to ∈ profile_name <$> profiles (self st) →
   ∃ prf st' before after,
     set_active_profile change_to st = (inr prf, st') ∧
     profiles (self st) = before ++ prf :: after ∧
     Forall (λ p, profile_name p ≠ change_to) before ∧
     profile_name prf = change_to ∧
     using_profile (self st') = change_to ∧
     active_profile st' = (inr prf, st') ∧
     objects st' = objects st ∧
     profiles (self st') = profiles (self st) ∧
     alias_list (self st') = alias_list (self st) ∧
     key_list (self st') = key_list (self st) ∧
     address_list (self st') = address_list (self st) ∧
     using_address (self st') = using_address (self st) ∧
     group_name (self st') = group_name (self st)) ∧
  (change_to ∉ profile_name <$> profiles (self st) →
   set_active_profile change_to st = (inl (ProfileDoesNotExist change_to), st)).
Proof.
  split.
  - intros Hin.
    destruct (_profile_exists change_to st) as [prf|] eqn:Hex.
    2:{ by apply profile_exists_None in Hex. }
    pose proof Hex as (l1 & l2 & Hl & Hbefore & Hname)%next_filter_Some.
    exists prf. eexists. exists l1, l2. run. rewrite Hex. simpl.
    split; [done|]. split; [done|]. split; [done|]. split; [done|].
    split; [done|]. split; [|done].
    unfold _profile_exists in *. simpl. by rewrite Hex.
  - intros Hnot%profile_exists_None. run. by rewrite Hnot.
Qed.

(** X19: [add_profile] refuses a profile whose name is taken and leaves the group
    as it was; otherwise it appends the profile after the existing ones,
    makes it the active profile when asked to, and keeps profile names
    pairwise distinct when they were. *)
Theorem add_profile_registers new_prf make_active st :
  (profile_name new_prf ∈ profile_name <$> profiles (self st) →
   add_profile new_prf make_active st
     = (inl (ProfileAlreadyExists (profile_name new_prf)), st)) ∧
  (profile_name new_prf ∉ profile_name <$> profiles (self st) →
   ∃ st',
     add_profile new_prf make_active st = (inr (), st') ∧
     profiles (self st') = profiles (self st) ++ [new_prf] ∧
     using_profile (self st')
       = (if make_active then profile_name new_prf
          else using_profile (self st)) ∧
     (make_active = true → active_profile st' = (inr new_prf, st')) ∧
     (NoDup (profile_name <$> profiles (self st)) →
      NoDup (profile_name <$> profiles (self st'))) ∧
     objects st' = objects st ∧
     alias_list (self st') = alias_list (self st) ∧
     key_list (self st') = key_list (self st) ∧
     address_list (self st') = address_list (self st) ∧
     using_address (self st') = using_address (self st)).
Proof.
  split.
  - intros Hin.
    destruct (_profile_exists (profile_name new_prf) st) as [prf|] eqn:Hex.
    2:{ by apply profile_exists_None in Hex. }
    run. by rewrite Hex.
  - intros Hfresh. pose proof Hfresh as Hnone%profile_exists_None.
    assert (∀ name,
      _profile_exists (profile_name new_prf)
        {| self := {| group_name := group_name (self st);
                      using_profile := name;
                      using_address := using_address (self st);
                      alias_list := alias_list (self st);
                      key_list := key_list (self st);
                      address_list := address_list (self st);
                      profiles := profiles (self st) ++ [new_prf] |};
           objects := objects st |} = Some new_prf) as Hfound.
    { intros name. unfold _profile_exists. simpl.
      apply (next_filter_first
               (λ prf, profile_name prf = profile_name new_prf)); [|done].
      by apply (next_filter_None
                  (λ prf, profile_name prf = profile_name new_prf)). }
    assert (NoDup (profile_name <$> profiles (self st)) →
            NoDup (profile_name <$> profiles (self st) ++ [new_prf])) as Hnd.
    { intros Hnd. rewrite fmap_app. apply NoDup_app.
      split; [done|]. split; [|apply NoDup_singleton].
      by intros x Hx ->%list_elem_of_singleton. }
    destruct make_active.
    + exists {| self := {| group_name := group_name (self st);
                          using_profile := profile_name new_prf;
                          using_address := using_address (self st);
                          alias_list := alias_list (self st);
                          key_list := key_list (self st);
                          address_list := address_list (self st);
                          profiles := profiles (self st) ++ [new_prf] |};
                 objects := objects st |}.
      run. rewrite Hnone. simpl. rewrite !Hfound. by repeat split.
    + exists {| self := {| group_name := group_name (self st);
                          using_profile := using_profile (self st);
                          using_address := using_address (self st);
                          alias_list := alias_list (self st);
                          key_list := key_list (self st);
                          address_list := address_list (self st);
                          profiles := profiles (self st) ++ [new_prf] |};
                 objects := objects st |}.
      run. rewrite Hnone. simpl. by repeat split.
Qed.

(** ** The sample group *)

Lemma methods_keep_lists_aligned_witness :
  aligned sample ∧
  aligned (replace_alias_name "able" "zed" sample).2 ∧
  aligned (add_keypair_and_parts "0xc" 2%nat {| private_key_base64 := "k2" |}
             true sample).2.
Proof.
  assert (aligned sample) as Hal by (split; reflexivity).
  split; [assumption|].
  destruct (methods_keep_lists_aligned sample Hal)
    as (_ & _ & Hreplace & _ & Hadd & _).
  split; [apply Hreplace | apply Hadd].
Defined.

Lemma alias_and_address_lookups_are_inverse_witness :
  NoDup (address_list (self sample)) ∧
  NoDup (alias_names sample) ∧
  (address_for_alias "baker" sample).1 = inr "0xb" ∧
  alias_name_for_address "0xb" sample = (inr "baker", sample).
Proof.
  assert (NoDup (address_list (self sample))) as Haddrs.
  { apply (bool_decide_unpack _). vm_compute. exact I. }
  assert (NoDup (alias_names sample)) as Hnames.
  { apply (bool_decide_unpack _). vm_compute. exact I. }
  assert ((address_for_alias "baker" sample).1 = inr "0xb") as Hlook
    by reflexivity.
  repeat (split; [assumption|]).
  apply (proj1 (alias_and_address_lookups_are_inverse sample Haddrs Hnames)
           "baker" "0xb" Hlook).
  discriminate.
Defined.

Lemma replace_alias_name_renames_witness :
  _alias_exists "able" sample = Some 0%nat ∧
  ("zed" ∉ alias_names sample) ∧
  (replace_alias_name "able" "zed" sample).1 = inr "0xa" ∧
  (address_for_alias "zed" (replace_alias_name "able" "zed" sample).2).1
    = inr "0xa".
Proof.
  assert (_alias_exists "able" sample = Some 0%nat) as Hfrom by reflexivity.
  assert ("zed" ∉ alias_names sample) as Hfree.
  { apply (bool_decide_unpack _). vm_compute. exact I. }
  repeat (split; [assumption|]).
  destruct (replace_alias_name_renames "able" "zed" sample 0%nat Hfrom Hfree)
    as (Hres & _ & _ & _ & Hnew & _).
  split; [exact Hres | exact Hnew].
Defined.


End ConfGroupFacts.


(** * Properties of the conversion utilities *)

Module SuiUtilsFacts.
Import SuiUtils.

Local Open Scope Z_scope.

(** ** [int_to_listu8] *)

Lemma to_bytes_little_length len n :
  length (to_bytes_little len n) = len.
Proof. revert n. induction len as [|len IH]; intros n; simpl; auto. Qed.

Lemma to_bytes_little_bytes len n :
  Forall (λ b, 0 ≤ b < 256) (to_bytes_little len n).
Proof.
  revert n. induction len as [|len IH]; intros n; simpl; constructor.
  - apply Z.mod_pos_bound. lia.
  - apply IH.
Qed.

Lemma to_bytes_little_value len n :
  0 ≤ n < 256 ^ Z.of_nat len →
  little_endian (to_bytes_little len n) = n.
Proof.
  revert n. induction len as [|len IH]; intros n Hn.
  - simpl in *. lia.
  - cbn [to_bytes_little little_endian foldr].
    fold (little_endian (to_bytes_little len (n / 256))).
    rewrite IH.
    + pose proof (Z.div_mod n 256). lia.
    + rewrite Nat2Z.inj_succ, Z.pow_succ_r in Hn by lia.
      split; [apply Z.div_pos; lia|].
      apply Z.div_lt_upper_bound; lia.
Qed.

(** The most significant byte of a value that needs all the bytes. *)
Lemma to_bytes_little_last len n :
  256 ^ Z.of_nat len ≤ n < 256 ^ Z.of_nat (S len) →
  ∃ init msb,
    to_bytes_little (S len) n = init ++ [msb] ∧ msb ≠ 0.
Proof.
  revert n. induction len as [|len IH]; intros n Hn.
  - exists [], (n mod 256). split; [done|].
    change (256 ^ Z.of_nat 0) with 1 in Hn.
    change (256 ^ Z.of_nat 1) with 256 in Hn.
    rewrite Z.mod_small by lia. lia.
  - destruct (IH (n / 256)) as (init & msb & Heq & Hmsb).
    + rewrite !Nat2Z.inj_succ, !Z.pow_succ_r in * by lia.
      split; [apply Z.div_le_lower_bound; lia|].
      apply Z.div_lt_upper_bound; lia.
    + exists (n mod 256 :: init), msb. split; [|done].
      change (to_bytes_little (S (S len)) n)
        with (n mod 256 :: to_bytes_little (S len) (n / 256)).
      by rewrite Heq.
Qed.

(** The byte count [int_to_listu8] computes brackets the value. *)
Lemma byte_res_bounds n :
  0 < n →
  let byte_res := (bit_length n + 7) / 8 in
  0 < byte_res ∧ 256 ^ (byte_res - 1) ≤ n < 256 ^ byte_res.
Proof.
  intros Hn byte_res. subst byte_res. unfold bit_length.
  rewrite (proj2 (Z.eqb_neq n 0)) by lia. rewrite Z.abs_eq by lia.
  pose proof (Z.log2_nonneg n) as Hk.
  destruct (Z.log2_spec n Hn) as [Hlo Hhi].
  set (k := Z.log2 n) in *.
  replace (k + 1 + 7) with (k + 1 * 8) by lia.
  rewrite Z.div_add by lia.
  pose proof (Z.div_mod k 8) as Hdm.
  pose proof (Z.mod_pos_bound k 8) as Hmod.
  assert (0 ≤ k / 8) as Hq by (apply Z.div_pos; lia).
  split; [lia|].
  replace (k / 8 + 1 - 1) with (k / 8) by lia.
  change 256 with (2 ^ 8). rewrite <- !Z.pow_mul_r by lia.
  split.
  - etrans; [|exact Hlo]. apply Z.pow_le_mono_r; lia.
  - eapply Z.lt_le_trans; [exact Hhi|]. apply Z.pow_le_mono_r; lia.
Qed.

(** X20: When [int_to_listu8] returns, the integer was not negative, the list
    has exactly [byte_count] bytes, it reads back least significant byte
    first as the integer, and its last byte is not zero. *)
Theorem int_to_listu8_round_trip byte_count in_el bytes :
  int_to_listu8 byte_count in_el = inr bytes →
  0 ≤ in_el ∧
  Z.of_nat (length bytes) = byte_count ∧
  Forall (λ b, 0 ≤ b < 256) bytes ∧
  little_endian bytes = in_el ∧
  (in_el ≠ 0 → ∃ init msb, bytes = init ++ [msb] ∧ msb ≠ 0).
Proof.
  unfold int_to_listu8.
  destruct (Z.eqb_spec ((bit_length in_el + 7) / 8) byte_count) as [<-|];
    [|done].
  destruct (Z.ltb_spec in_el 0) as [|Hnn]; [done|].
  intros ?; simplify_eq.
  destruct (decide (in_el = 0)) as [->|Hne].
  { by repeat split. }
  destruct (byte_res_bounds in_el) as (Hpos & Hlo & Hhi); [lia|].
  set (byte_res := (bit_length in_el + 7) / 8) in *.
  split; [done|]. rewrite to_bytes_little_length.
  split; [lia|]. split; [apply to_bytes_little_bytes|]. split.
  - apply to_bytes_little_value. rewrite Z2Nat.id by lia. lia.
  - intros _.
    assert (Z.to_nat byte_res = S (Z.to_nat (byte_res - 1))) as -> by lia.
    apply to_bytes_little_last.
    rewrite Nat2Z.inj_succ, Z2Nat.id by lia.
    by replace (Z.succ (byte_res - 1)) with byte_res by lia.
Qed.

(** X21: [int_to_listu8] returns exactly when the integer is zero and no byte is
    asked for, or the integer is positive and [byte_count] is the least
    number of bytes that holds it; it never pads, so zero in one byte and
    one in eight bytes both raise, and it never returns for a negative
    integer. *)
Theorem int_to_listu8_returns_iff byte_count in_el :
  (∃ bytes, int_to_listu8 byte_count in_el = inr bytes) ↔
  (in_el = 0 ∧ byte_count = 0) ∨
  (0 < byte_count ∧ 256 ^ (byte_count - 1) ≤ in_el < 256 ^ byte_count).
Proof.
  unfold int_to_listu8. split.
  - intros [bytes Hrun].
    destruct (Z.eqb_spec ((bit_length in_el + 7) / 8) byte_count) as [<-|];
      [|done].
    destruct (Z.ltb_spec in_el 0) as [|Hnn]; [done|].
    destruct (decide (in_el = 0)) as [->|Hne]; [by left|].
    right. apply byte_res_bounds. lia.
  - intros [[-> ->]|(Hpos & Hlo & Hhi)]; [by eexists|].
    assert (0 < in_el) as Hn.
    { eapply Z.lt_le_trans; [|exact Hlo]. apply Z.pow_pos_nonneg; lia. }
    destruct (byte_res_bounds in_el Hn) as (Hpos' & Hlo' & Hhi').
    set (byte_res := (bit_length in_el + 7) / 8) in *.
    assert (byte_res = byte_count) as ->.
    { assert (byte_res - 1 < byte_count).
      { apply (Z.pow_lt_mono_r_iff 256); lia. }
      assert (byte_count - 1 < byte_res).
      { apply (Z.pow_lt_mono_r_iff 256); lia. }
      lia. }
    rewrite Z.eqb_refl.
    destruct (Z.ltb_spec in_el 0); [lia|]. by eexists.
Qed.

(** ** [hexstring_to_list] *)

(** Induction on a list two elements at a time. *)
Lemma pair_ind {A} (P : list A → Prop) :
  P [] → (∀ a, P [a]) → (∀ a b l, P l → P (a :: b :: l)) → ∀ l, P l.
Proof.
  intros Hnil Hone Hstep l.
  assert (P l ∧ ∀ a, P (a :: l)) as [? _]; [|done].
  induction l as [|b l [IH1 IH2]]; [by split|].
  split; [apply IH2|]. intros a. by apply Hstep.
Qed.

Lemma hex_digit_bounds c d : hex_digit c = Some d → 0 ≤ d < 16.
Proof.
  unfold hex_digit. set (n := Z.of_N (N_of_ascii c)).
  repeat case_match; intros ?; simplify_eq;
    repeat match goal with
           | H : _ && _ = true |- _ => apply andb_prop in H as [? ?]
           end; lia.
Qed.

(** What [unhexlify] returns: one byte for every two digits, with the value
    the digits have. *)
Lemma unhexlify_returned s :
  ∀ bytes, unhexlify s = inr bytes →
    is_hex s ∧
    length s = (2 * length bytes)%nat ∧
    Forall (λ b, 0 ≤ b < 256) bytes ∧
    ∀ acc, foldl (λ acc b, acc * 256 + b) acc bytes
           = foldl (λ acc c, acc * 16 + default 0 (hex_digit c)) acc s.
Proof.
  induction s as [| |a b s IH] using pair_ind; intros bytes.
  - simpl. intros ?; simplify_eq.
    split; [constructor|]. split; [done|]. split; [constructor | done].
  - done.
  - cbn [unhexlify].
    destruct (hex_digit a) as [hi|] eqn:Ha; [|done].
    destruct (hex_digit b) as [lo|] eqn:Hb; [|done].
    destruct (unhexlify s) as [e|rest] eqn:Hs; [done|].
    intros ?; simplify_eq.
    destruct (IH rest eq_refl) as (Hhex & Hlen & Hbytes & Hval).
    pose proof (hex_digit_bounds _ _ Ha). pose proof (hex_digit_bounds _ _ Hb).
    repeat split.
    + repeat constructor; by eauto.
    + simpl. lia.
    + constructor; [lia | done].
    + intros acc. simpl. rewrite Ha, Hb. simpl. rewrite Hval.
      f_equal. lia.
Qed.

(** When [unhexlify] returns: an even number of hex digits. *)
Lemma unhexlify_returns s :
  is_hex s → Nat.even (length s) = true → ∃ bytes, unhexlify s = inr bytes.
Proof.
  induction s as [| |a b s IH] using pair_ind; intros Hhex Heven.
  - by eexists.
  - done.
  - apply Forall_cons in Hhex as [[hi Ha] Hhex].
    apply Forall_cons in Hhex as [[lo Hb] Hhex].
    destruct (IH Hhex Heven) as [bytes Hs].
    cbn [unhexlify]. rewrite Ha, Hb, Hs. by eexists.
Qed.

Lemma count_hex c s :
  hex_digit c = None → is_hex s → count c s = 0%nat.
Proof.
  intros Hc Hhex. unfold count.
  induction Hhex as [|y s [d Hy] _ IH]; [done|].
  rewrite filter_cons_False; [done|]. intros ->. congruence.
Qed.

Lemma zfill_hex width s :
  is_hex s → zfill width s = replicate (width - length s) "0"%char ++ s.
Proof.
  intros Hhex. unfold zfill. destruct Hhex as [|c s [d Hc] _].
  - by rewrite app_nil_r.
  - rewrite decide_False; [done|]. intros [-> | ->]; discriminate.
Qed.

Lemma hex_value_zeros k s :
  hex_value (replicate k "0"%char ++ s) = hex_value s.
Proof.
  unfold hex_value. rewrite foldl_app. f_equal.
  induction k as [|k IH]; [done|]. simpl. exact IH.
Qed.

(** X22: A string of hex digits shorter than the fill length, bare or behind
    [0x] or [0X], is padded with zeros on the left: the list has half the
    fill length in bytes and reads, most significant byte first, as the
    number the digits stand for. *)
Theorem hexstring_to_list_pads prefix digits default_fill_length :
  prefix = [] ∨ prefix = ["0"; "x"]%char ∨ prefix = ["0"; "X"]%char →
  is_hex digits →
  Z.of_nat (length (prefix ++ digits)) < default_fill_length →
  Z.even default_fill_length = true →
  ∃ bytes,
    hexstring_to_list (prefix ++ digits) default_fill_length = inr bytes ∧
    2 * Z.of_nat (length bytes) = default_fill_length ∧
    Forall (λ b, 0 ≤ b < 256) bytes ∧
    big_endian bytes = hex_value digits.
Proof.
  intros Hprefix Hhex Hshort Heven.
  assert (length digits ≤ Z.to_nat default_fill_length)%nat as Hfits.
  { rewrite length_app in Hshort. lia. }
  assert ((if negb (Nat.eqb (count "x"%char (prefix ++ digits)) 0)
              || negb (Nat.eqb (count "X"%char (prefix ++ digits)) 0)
           then drop 2 (prefix ++ digits) else prefix ++ digits) = digits)
    as Hstrip.
  { destruct Hprefix as [->|[->| ->]]; unfold count; simpl.
    - fold (count "x"%char digits). fold (count "X"%char digits).
      by rewrite !count_hex.
    - apply drop_0.
    - rewrite orb_true_r. apply drop_0. }
  unfold hexstring_to_list.
  rewrite (proj2 (Z.ltb_lt _ _) Hshort), Hstrip. simpl.
  rewrite zfill_hex by done.
  set (zeros := replicate _ "0"%char).
  assert (length (zeros ++ digits) = Z.to_nat default_fill_length) as Hlen.
  { subst zeros. rewrite length_app, length_replicate. lia. }
  destruct (unhexlify_returns (zeros ++ digits)) as [bytes Hrun].
  - apply Forall_app. split; [|done].
    subst zeros. apply Forall_replicate. by exists 0.
  - rewrite Hlen. apply Z.even_spec in Heven.
    destruct Heven as [k ->].
    replace (Z.to_nat (2 * k)) with (2 * Z.to_nat k)%nat by lia.
    apply Nat.even_spec. by eexists.
  - exists bytes. split; [done|].
    destruct (unhexlify_returned _ _ Hrun) as (_ & Hl & Hbytes & Hval).
    rewrite Hlen in Hl. split; [lia|]. split; [done|].
    unfold big_endian. rewrite Hval.
    subst zeros. apply hex_value_zeros.
Qed.

(** X23: A string at least as long as the fill length is not padded and its
    first two characters are dropped unread.  So with the [0x] prefix the
    digits come out whole, one byte for every two, and without a prefix the
    first two digits are lost; an odd number of digits, or a character that
    is not a hex digit, raises. *)
Theorem hexstring_to_list_long indata default_fill_length :
  default_fill_length ≤ Z.of_nat (length indata) →
  hexstring_to_list indata default_fill_length = unhexlify (drop 2 indata) ∧
  ((∃ bytes, hexstring_to_list indata default_fill_length = inr bytes) ↔
   is_hex (drop 2 indata) ∧ Nat.even (length (drop 2 indata)) = true) ∧
  (∀ bytes,
     hexstring_to_list indata default_fill_length = inr bytes →
     (2 * length bytes)%nat = (length indata - 2)%nat ∧
     Forall (λ b, 0 ≤ b < 256) bytes ∧
     big_endian bytes = hex_value (drop 2 indata)).
Proof.
  intros Hlong.
  assert (hexstring_to_list indata default_fill_length
          = unhexlify (drop 2 indata)) as ->.
  { unfold hexstring_to_list.
    by rewrite (proj2 (Z.ltb_ge _ _) Hlong). }
  split; [done|]. split; [split|].
  - intros [bytes Hrun].
    destruct (unhexlify_returned _ _ Hrun) as (Hhex & Hlen & _).
    split; [done|]. rewrite Hlen. apply Nat.even_spec. by eexists.
  - intros [Hhex Heven]. by apply unhexlify_returns.
  - intros bytes Hrun.
    destruct (unhexlify_returned _ _ Hrun) as (_ & Hlen & Hbytes & Hval).
    rewrite length_drop in Hlen. split; [lia|]. split; [done|].
    unfold big_endian, hex_value. apply Hval.
Qed.

(** ** Package digests *)

Lemma bytes_leb_total a b : bytes_leb a b = true ∨ bytes_leb b a = true.
Proof.
  revert b. induction a as [|x a IH]; intros [|y b]; simpl; auto.
  destruct (Z.ltb_spec x y), (Z.ltb_spec y x); auto; lia.
Qed.

Lemma bytes_leb_antisym a b :
  bytes_leb a b = true → bytes_leb b a = true → a = b.
Proof.
  revert b. induction a as [|x a IH]; intros [|y b]; simpl; try done.
  destruct (Z.ltb_spec x y), (Z.ltb_spec y x); try done; try lia.
  intros Hab Hba. f_equal; [lia | by apply IH].
Qed.

Lemma bytes_leb_trans a b c :
  bytes_leb a b = true → bytes_leb b c = true → bytes_leb a c = true.
Proof.
  revert b c. induction a as [|x a IH]; intros [|y b] [|z c]; simpl;
    try done.
  destruct (Z.ltb_spec x y), (Z.ltb_spec y z), (Z.ltb_spec x z),
    (Z.ltb_spec y x), (Z.ltb_spec z y), (Z.ltb_spec z x);
    try done; try lia.
  apply IH.
Qed.

#[local] Instance bytes_le_total : Total bytes_le.
Proof. intros a b. apply bytes_leb_total. Qed.

#[local] Instance bytes_le_antisym : AntiSymm (=) bytes_le.
Proof. intros a b. apply bytes_leb_antisym. Qed.

#[local] Instance bytes_le_trans : Transitive bytes_le.
Proof. intros a b c. apply bytes_leb_trans. Qed.

(** Sorting forgets the order the blocks came in. *)
Lemma merge_sort_bytes_perm (l1 l2 : list (list Z)) :
  l1 ≡ₚ l2 → merge_sort bytes_le l1 = merge_sort bytes_le l2.
Proof.
  intros Hperm. apply (Sorted_unique bytes_le).
  - apply Sorted_merge_sort; apply _.
  - apply Sorted_merge_sort; apply _.
  - by rewrite !merge_sort_Permutation.
Qed.

Lemma unhexlify_all_perm deps1 deps2 :
  deps1 ≡ₚ deps2 →
  match unhexlify_all deps1, unhexlify_all deps2 with
  | inr bytes1, inr bytes2 => bytes1 ≡ₚ bytes2
  | inl _, inl _ => True
  | _, _ => False
  end.
Proof.
  induction 1 as [|d l1 l2 _ IH|d1 d2 l|l1 l2 l3 _ IH1 _ IH2]; simpl.
  - done.
  - destruct (unhexlify (drop 2 d)); [done|].
    destruct (unhexlify_all l1), (unhexlify_all l2); try done.
    by constructor.
  - destruct (unhexlify (drop 2 d1)), (unhexlify (drop 2 d2)),
      (unhexlify_all l); try done.
    constructor.
  - destruct (unhexlify_all l1), (unhexlify_all l2), (unhexlify_all l3);
      try done. by etrans.
Qed.

Lemma unhexlify_all_returns deps :
  (∃ bytes, unhexlify_all deps = inr bytes) ↔
  Forall (λ dep_str, is_hex (drop 2 dep_str) ∧
                     Nat.even (length (drop 2 dep_str)) = true) deps.
Proof.
  induction deps as [|d deps IH]; simpl.
  - split; [constructor | by eexists].
  - split.
    + intros [bytes Hrun].
      destruct (unhexlify (drop 2 d)) as [e|b] eqn:Hd; [done|].
      destruct (unhexlify_all deps) as [e|bs]; [done|].
      constructor; [|apply IH; by eexists].
      destruct (unhexlify_returned _ _ Hd) as (Hhex & Hlen & _).
      split; [done|]. rewrite Hlen. apply Nat.even_spec. by eexists.
    + intros [[Hhex Heven] Hrest]%Forall_cons.
      destruct (unhexlify_returns _ Hhex Heven) as [b ->].
      apply IH in Hrest as [bs ->]. by eexists.
Qed.

Section DigestFacts.

Variable blake2b : list Z → list Z.

(** X24: Both digest functions are blind to order: with the same modules and the
    same dependencies, listed in any order, they either both raise or give
    the same package digest. *)
Theorem package_digest_ignores_order package1 package2 readers1 readers2 :
  readers1 ≡ₚ readers2 →
  dependencies package1 ≡ₚ dependencies package2 →
  match _package_digest blake2b package1 readers1,
        _package_digest blake2b package2 readers2 with
  | inr p1, inr p2 => package_digest p1 = package_digest p2
  | inl _, inl _ => True
  | _, _ => False
  end ∧
  match _new_package_digest blake2b package1 readers1,
        _new_package_digest blake2b package2 readers2 with
  | inr p1, inr p2 => package_digest p1 = package_digest p2
  | inl _, inl _ => True
  | _, _ => False
  end.
Proof.
  intros Hreaders Hdeps.
  pose proof (unhexlify_all_perm _ _ Hdeps) as Hbytes.
  unfold _package_digest, _new_package_digest, digest_sorted.
  destruct (unhexlify_all (dependencies package1)) as [e1|bytes1],
    (unhexlify_all (dependencies package2)) as [e2|bytes2]; try done.
  simpl. split; do 2 f_equal; f_equal; apply merge_sort_bytes_perm.
  - by rewrite Hreaders, Hbytes.
  - by rewrite Hreaders, Hbytes.
Qed.

(** X25: Both digest functions return exactly when every dependency, once its
    first two characters are dropped unread, is an even number of hex
    digits; they then list the base64 text of every module, in the order of
    the readers, and leave the other fields of the package as they were. *)
Theorem package_digest_returns_iff package readers :
  let ok := Forall (λ dep_str, is_hex (drop 2 dep_str) ∧
                               Nat.even (length (drop 2 dep_str)) = true)
              (dependencies package) in
  ((∃ p, _package_digest blake2b package readers = inr p) ↔ ok) ∧
  ((∃ p, _new_package_digest blake2b package readers = inr p) ↔ ok) ∧
  (∀ p,
     _package_digest blake2b package readers = inr p ∨
     _new_package_digest blake2b package readers = inr p →
     compiled_modules p = Some (b64 <$> readers) ∧
     dependencies p = dependencies package ∧
     project_name p = project_name package ∧
     project_id p = project_id package ∧
     project_source_digest p = project_source_digest package).
Proof.
  intros ok. subst ok.
  pose proof (unhexlify_all_returns (dependencies package)) as Hiff.
  unfold _package_digest, _new_package_digest.
  destruct (unhexlify_all (dependencies package)) as [e|bytes].
  - assert (¬ Forall (λ dep_str, is_hex (drop 2 dep_str) ∧
                        Nat.even (length (drop 2 dep_str)) = true)
                (dependencies package)) as Hnot.
    { intros Hok. by apply Hiff in Hok as [? ?]. }
    split; [split; [by intros [? ?] | done]|].
    split; [split; [by intros [? ?] | done]|].
    by intros p [?|?].
  - assert (Forall (λ dep_str, is_hex (drop 2 dep_str) ∧
                      Nat.even (length (drop 2 dep_str)) = true)
              (dependencies package)) as Hok by (apply Hiff; by eexists).
    split; [split; [done | by eexists]|].
    split; [split; [done | by eexists]|].
    intros p [?|?]; by simplify_eq.
Qed.

End DigestFacts.

(** ** Sample conversions *)

Lemma int_to_listu8_round_trip_witness :
  int_to_listu8 2 258 = inr [2; 1] ∧
  0 ≤ 258 ∧
  Z.of_nat (length [2; 1]) = 2 ∧
  Forall (λ b, 0 ≤ b < 256) [2; 1] ∧
  little_endian [2; 1] = 258 ∧
  (258 ≠ 0 → ∃ init msb, [2; 1] = init ++ [msb] ∧ msb ≠ 0).
Proof.
  assert (int_to_listu8 2 258 = inr [2; 1]) as Hrun by reflexivity.
  split; [assumption|].
  exact (int_to_listu8_round_trip 2 258 [2; 1] Hrun).
Defined.

Lemma hexstring_to_list_pads_witness :
  (["0"; "x"]%char = [] ∨ ["0"; "x"]%char = ["0"; "x"]%char
   ∨ ["0"; "x"]%char = ["0"; "X"]%char) ∧
  is_hex ["1"; "f"]%char ∧
  Z.of_nat (length (["0"; "x"] ++ ["1"; "f"])%char) < 8 ∧
  Z.even 8 = true ∧
  ∃ bytes,
    hexstring_to_list (["0"; "x"] ++ ["1"; "f"])%char 8 = inr bytes ∧
    2 * Z.of_nat (length bytes) = 8 ∧
    Forall (λ b, 0 ≤ b < 256) bytes ∧
    big_endian bytes = hex_value ["1"; "f"]%char.
Proof.
  assert (["0"; "x"]%char = [] ∨ ["0"; "x"]%char = ["0"; "x"]%char
          ∨ ["0"; "x"]%char = ["0"; "X"]%char) as Hprefix
    by (right; left; reflexivity).
  assert (is_hex ["1"; "f"]%char) as Hhex.
  { repeat constructor; eexists; reflexivity. }
  assert (Z.of_nat (length (["0"; "x"] ++ ["1"; "f"])%char) < 8) as Hshort
    by reflexivity.
  assert (Z.even 8 = true) as Heven by reflexivity.
  repeat (split; [assumption|]).
  exact (hexstring_to_list_pads _ _ 8 Hprefix Hhex Hshort Heven).
Defined.

Lemma hexstring_to_list_long_witness :
  8 ≤ Z.of_nat (length (list_ascii_of_string "01020304")) ∧
  hexstring_to_list (list_ascii_of_string "01020304") 8 = inr [2; 3; 4] ∧
  hexstring_to_list (list_ascii_of_string "0x01020304") 8
    = inr [1; 2; 3; 4].
Proof.
  assert (8 ≤ Z.of_nat (length (list_ascii_of_string "01020304"))) as Hlong
    by (vm_compute; discriminate).
  assert (8 ≤ Z.of_nat (length (list_ascii_of_string "0x01020304")))
    as Hlong' by (vm_compute; discriminate).
  split; [assumption|]. split.
  - rewrite (proj1 (hexstring_to_list_long _ 8 Hlong)). reflexivity.
  - rewrite (proj1 (hexstring_to_list_long _ 8 Hlong')). reflexivity.
Defined.

(** Two modules and two dependencies, listed in either order; the hash is
    stood in for by the identity, which shows the bytes that are hashed. *)
Lemma package_digest_ignores_order_witness :
  [[7; 1]; [3]] ≡ₚ [[3]; [7; 1]] ∧
  dependencies (tracker [dep_two; dep_one])
    ≡ₚ dependencies (tracker [dep_one; dep_two]) ∧
  match _package_digest (λ bytes, bytes) (tracker [dep_two; dep_one])
          [[7; 1]; [3]],
        _package_digest (λ bytes, bytes) (tracker [dep_one; dep_two])
          [[3]; [7; 1]] with
  | inr p1, inr p2 => package_digest p1 = package_digest p2
  | inl _, inl _ => True
  | _, _ => False
  end.
Proof.
  assert ([[7; 1]; [3]] ≡ₚ [[3]; [7; 1]]) as Hreaders by apply perm_swap.
  assert (dependencies (tracker [dep_two; dep_one])
            ≡ₚ dependencies (tracker [dep_one; dep_two])) as Hdeps
    by apply perm_swap.
  split; [assumption|]. split; [assumption|].
  exact (proj1 (package_digest_ignores_order (λ bytes, bytes)
                  (tracker [dep_two; dep_one]) (tracker [dep_one; dep_two])
                  [[7; 1]; [3]] [[3]; [7; 1]] Hreaders Hdeps)).
Defined.

End SuiUtilsFacts.
